(** * node-spdlog: the [Logger] binding of [src/logger.cc]

    A shallow embedding of the native binding: the JavaScript values the
    methods receive, the wrapped [Logger] objects with their [logger_]
    pointer, and the part of the logging library the binding calls (registry,
    loggers, sinks, the rotating file sink). *)

From Stdlib Require Import ZArith.
From stdpp Require Import gmap strings list fin_maps.

Local Open Scope Z_scope.

(** ** Severity levels *)

(** Modelled from the spec: the header that declares the level enumeration is
    not among the sources.  The ordered enumeration
    {trace, debug, info, warn, error, critical, off} is numbered from 0, as
    the integers of the external interface; [n_levels], which the source uses
    as the exclusive upper bound of a level number, is the enumerator that
    follows [off], that is the number of levels. *)
Module level.
Definition trace : Z := 0.
Definition debug : Z := 1.
Definition info : Z := 2.
Definition warn : Z := 3.
Definition err : Z := 4.
Definition critical : Z := 5.
Definition off : Z := 6.
Definition n_levels : Z := 7.
End level.

(** ** JavaScript values at the call boundary *)

(** A number is modelled by its integer value: fractions, NaN and the
    infinities are outside the model.  [JsObject h] is the object wrapping the
    native [Logger] number [h]. *)
Inductive js_value :=
| JsUndefined
| JsNull
| JsBoolean (b : bool)
| JsNumber (z : Z)
| JsString (s : string)
| JsObject (h : nat).

Definition IsString (v : js_value) : bool :=
  match v with JsString _ => true | _ => false end.

Definition IsNumber (v : js_value) : bool :=
  match v with JsNumber _ => true | _ => false end.

(** The [std::string] built from a [char*]: the bytes up to the first NUL. *)
Fixpoint c_str (s : string) : string :=
  match s with
  | EmptyString => EmptyString
  | String a rest =>
      if Ascii.eqb a Ascii.zero then EmptyString else String a (c_str rest)
  end.

(** [*Nan::Utf8String(v)] assigned to a [std::string], used by the source on
    values that passed [IsString]: the text of the string up to its first
    NUL. *)
Definition Utf8String (v : js_value) : string :=
  match v with JsString s => c_str s | _ => "" end.

Definition INT64_MIN : Z := - 2 ^ 63.
Definition INT64_MAX : Z := 2 ^ 63 - 1.

(** [Nan::To<int64_t>(v).FromJust()] on a number: the integer value, saturated
    to the range of [int64_t]. *)
Definition To_int64 (v : js_value) : Z :=
  match v with
  | JsNumber z => Z.max INT64_MIN (Z.min INT64_MAX z)
  | _ => 0
  end.

(** [static_cast<size_t>] of an [int64_t] (64-bit [size_t]). *)
Definition to_size_t (z : Z) : Z := z mod 2 ^ 64.

(** [info[i]]: reading past the supplied arguments gives [undefined]. *)
Definition arg (info : list js_value) (i : nat) : js_value :=
  default JsUndefined (info !! i).

(** How a native method ends: it sets a return value (left unset, the caller
    sees [undefined]), throws a JavaScript [Error] with a message, or the
    process dies ([Unwrap] of a foreign object, [ToLocalChecked] on an empty
    handle). *)
Inductive completion :=
| Return (v : js_value)
| Throw (msg : string)
| Abort.

(** ** The rotating file sink *)

(** Modelled from the spec: the rotating file sink is part of the logging
    library, whose sources are not included.  The definitions follow the
    algorithm of section 4.2: the files of one sink are addressed by their
    index (index 0 is the base path), each file is the list of its lines, and
    a write of a formatted record costs its byte length plus the newline. *)
Module RotatingSink.

Record t := mk {
  base_filename : string;
  max_size : Z;
  max_files : Z;
  current_size : Z;
  (* ghost: how many rotations this sink has performed *)
  rotations : nat
}.

Definition write_length (text : string) : Z :=
  Z.of_nat (String.length text) + 1.

Fixpoint file_size (lines : list string) : Z :=
  match lines with
  | [] => 0
  | l :: ls => write_length l + file_size ls
  end.

(** rename file [src] to [dst], replacing what was at [dst]; a missing
    source leaves the files as they are. *)
Definition rename_file (src dst : nat) (fam : gmap nat (list string))
  : gmap nat (list string) :=
  match fam !! src with
  | Some c => <[dst := c]> (delete src fam)
  | None => fam
  end.

(** for index = [n] down to 1: rename the file at index-1 to index. *)
Fixpoint shift_files (n : nat) (fam : gmap nat (list string))
  : gmap nat (list string) :=
  match n with
  | O => fam
  | S i => shift_files i (rename_file i (S i) fam)
  end.

(** the families the loop passes through, from the one it starts with to the
    one it ends with *)
Fixpoint shift_trace (n : nat) (fam : gmap nat (list string))
  : list (gmap nat (list string)) :=
  match n with
  | O => [fam]
  | S i => fam :: shift_trace i (rename_file i (S i) fam)
  end.

(** close the current file, shift the files from [max_files - 1] down to 1,
    reopen the base path truncated, reset the size counter. *)
Definition rotate (s : t) (fam : gmap nat (list string))
  : t * gmap nat (list string) :=
  ({| base_filename := base_filename s; max_size := max_size s;
      max_files := max_files s; current_size := 0;
      rotations := S (rotations s) |},
   <[0%nat := []]> (shift_files (Z.to_nat (max_files s - 1)) fam)).

Definition would_exceed (s : t) (text : string) : bool :=
  bool_decide (current_size s + write_length text > max_size s).

Definition append_line (text : string) (fam : gmap nat (list string))
  : gmap nat (list string) :=
  <[0%nat := default [] (fam !! 0%nat) ++ [text]]> fam.

(** one write: rotate first if the write would exceed the maximum size,
    then write the record and add its length to the counter. *)
Definition write (text : string) (s : t) (fam : gmap nat (list string))
  : t * gmap nat (list string) :=
  let '(s1, fam1) := if would_exceed s text then rotate s fam else (s, fam) in
  ({| base_filename := base_filename s1; max_size := max_size s1;
      max_files := max_files s1;
      current_size := current_size s1 + write_length text;
      rotations := rotations s1 |},
   append_line text fam1).

(** the states at the start of each write of [texts], and the final one. *)
Fixpoint run (texts : list string) (s : t) (fam : gmap nat (list string))
  : list (t * gmap nat (list string)) :=
  match texts with
  | [] => [(s, fam)]
  | x :: rest => (s, fam) :: (let '(s', fam') := write x s fam in run rest s' fam')
  end.

(** open (or create) the base file of a family and start counting from its
    size. *)
Definition open_base (fam : gmap nat (list string)) : gmap nat (list string) :=
  match fam !! 0%nat with
  | Some _ => fam
  | None => <[0%nat := []]> fam
  end.

Definition create (filename : string) (size files : Z)
    (fam : gmap nat (list string)) : t * gmap nat (list string) :=
  ({| base_filename := filename; max_size := size; max_files := files;
      current_size := file_size (default [] (fam !! 0%nat));
      rotations := 0 |},
   open_base fam).



End RotatingSink.

(** ** Loggers, sinks and the registry of the logging library *)

Inductive formatter :=
| pattern_formatter (pattern : string)
| VoidFormatter.

(** A log record (the timestamp is real time and is left out). *)
Record log_msg := {
  logger_name : string;
  msg_level : Z;
  payload : string
}.

Inductive sink_kind :=
| stdout_sink
| rotating_file_sink (rs : RotatingSink.t).

Record sink := {
  sink_level : Z;
  sink_formatter : formatter;
  sink_target : sink_kind
}.

(** [lg_level] is the logger's own level once it has been set; until then the
    logger consults the process-wide default.  [lg_queue] holds the records
    an async logger has handed to the dispatch queue and the worker has not
    yet written. *)
Record logger := {
  lg_name : string;
  lg_level : option Z;
  lg_sinks : list sink;
  lg_async : bool;
  lg_queue : list log_msg
}.

(** The process: the registry (name to shared logger), the loggers the
    shared pointers refer to, the wrapped [Logger] objects with their
    [logger_] field ([None] is [NULL]), the process-wide defaults, and the
    outside world the sinks write to.  [disk] maps a base path to the files
    of its family; a path listed in [disk_errors] cannot be opened and the
    library reports the given message. *)
Record world := {
  registry : gmap string nat;
  heap : list logger;
  wrapped : list (option nat);
  global_log_level : Z;
  global_flush_level : Z;
  stdout : list string;
  disk : gmap string (gmap nat (list string));
  disk_errors : gmap string string
}.

Definition set_registry (r : gmap string nat) (w : world) : world :=
  {| registry := r; heap := heap w; wrapped := wrapped w;
     global_log_level := global_log_level w;
     global_flush_level := global_flush_level w; stdout := stdout w;
     disk := disk w; disk_errors := disk_errors w |}.

Definition set_heap (h : list logger) (w : world) : world :=
  {| registry := registry w; heap := h; wrapped := wrapped w;
     global_log_level := global_log_level w;
     global_flush_level := global_flush_level w; stdout := stdout w;
     disk := disk w; disk_errors := disk_errors w |}.

Definition set_wrapped (o : list (option nat)) (w : world) : world :=
  {| registry := registry w; heap := heap w; wrapped := o;
     global_log_level := global_log_level w;
     global_flush_level := global_flush_level w; stdout := stdout w;
     disk := disk w; disk_errors := disk_errors w |}.

Definition set_global_log_level (n : Z) (w : world) : world :=
  {| registry := registry w; heap := heap w; wrapped := wrapped w;
     global_log_level := n;
     global_flush_level := global_flush_level w; stdout := stdout w;
     disk := disk w; disk_errors := disk_errors w |}.

Definition set_global_flush_level (n : Z) (w : world) : world :=
  {| registry := registry w; heap := heap w; wrapped := wrapped w;
     global_log_level := global_log_level w;
     global_flush_level := n; stdout := stdout w;
     disk := disk w; disk_errors := disk_errors w |}.

Definition set_stdout (out : list string) (w : world) : world :=
  {| registry := registry w; heap := heap w; wrapped := wrapped w;
     global_log_level := global_log_level w;
     global_flush_level := global_flush_level w; stdout := out;
     disk := disk w; disk_errors := disk_errors w |}.

Definition set_disk (d : gmap string (gmap nat (list string))) (w : world) : world :=
  {| registry := registry w; heap := heap w; wrapped := wrapped w;
     global_log_level := global_log_level w;
     global_flush_level := global_flush_level w; stdout := stdout w;
     disk := d; disk_errors := disk_errors w |}.

Definition with_level (n : Z) (lg : logger) : logger :=
  {| lg_name := lg_name lg; lg_level := Some n; lg_sinks := lg_sinks lg;
     lg_async := lg_async lg; lg_queue := lg_queue lg |}.

Definition with_sinks (ss : list sink) (lg : logger) : logger :=
  {| lg_name := lg_name lg; lg_level := lg_level lg; lg_sinks := ss;
     lg_async := lg_async lg; lg_queue := lg_queue lg |}.

Definition with_queue (q : list log_msg) (lg : logger) : logger :=
  {| lg_name := lg_name lg; lg_level := lg_level lg; lg_sinks := lg_sinks lg;
     lg_async := lg_async lg; lg_queue := q |}.

Definition with_formatter (f : formatter) (s : sink) : sink :=
  {| sink_level := sink_level s; sink_formatter := f;
     sink_target := sink_target s |}.

Definition with_target (t : sink_kind) (s : sink) : sink :=
  {| sink_level := sink_level s; sink_formatter := sink_formatter s;
     sink_target := t |}.

Section Binding.

(** Modelled from the spec: pattern formatting belongs to the logging
    library.  [render pattern m] is the text a pattern formatter produces for
    a record, [default_pattern] the pattern of a newly created sink. *)
Variable render : string → log_msg → string.
Variable default_pattern : string.

(** Modelled from the spec: a pattern is checked when it is set, and a
    pattern with an unknown placeholder is an error then.  [pattern_ok]
    tells whether every placeholder of a pattern is known. *)
Variable pattern_ok : string → bool.

(** Modelled from the spec: a formatter maps a record to text, the void
    formatter yields the empty string. *)
Definition format (f : formatter) (m : log_msg) : string :=
  match f with
  | pattern_formatter p => render p m
  | VoidFormatter => ""
  end.

(** Modelled from the spec: [sink.log] does nothing for a record below the
    sink's level, otherwise formats and writes; the console sink appends a
    line to the standard output, the rotating sink runs its write on the
    files of its base path. *)
Definition sink_log (m : log_msg) (s : sink) (w : world) : sink * world :=
  if msg_level m <? sink_level s then (s, w)
  else
    let text := format (sink_formatter s) m in
    match sink_target s with
    | stdout_sink => (s, set_stdout (stdout w ++ [text]) w)
    | rotating_file_sink rs =>
        let path := RotatingSink.base_filename rs in
        let '(rs', fam') :=
          RotatingSink.write text rs (default ∅ (disk w !! path)) in
        (with_target (rotating_file_sink rs') s,
         set_disk (<[path := fam']> (disk w)) w)
    end.

Fixpoint sinks_log (m : log_msg) (ss : list sink) (w : world)
  : list sink * world :=
  match ss with
  | [] => ([], w)
  | s :: rest =>
      let '(s', w1) := sink_log m s w in
      let '(rest', w2) := sinks_log m rest w1 in
      (s' :: rest', w2)
  end.

(** the records pending in the queue reach the sinks in FIFO order *)
Fixpoint drain (q : list log_msg) (ss : list sink) (w : world)
  : list sink * world :=
  match q with
  | [] => (ss, w)
  | m :: rest => let '(ss1, w1) := sinks_log m ss w in drain rest ss1 w1
  end.

Definition effective_level (w : world) (lg : logger) : Z :=
  default (global_log_level w) (lg_level lg).

(** Modelled from the spec: the emit operation of the logger at heap location
    [l].  It is level-gated; a synchronous logger hands the record to every
    owned sink, an async logger to its dispatch queue.  (Failing I/O and the
    bound of the queue are outside the model.) *)
Definition logger_log (lvl : Z) (message : string) (l : nat) (lg : logger)
    (w : world) : world :=
  if lvl <? effective_level w lg then w
  else
    let m := {| logger_name := lg_name lg; msg_level := lvl;
                payload := message |} in
    if lg_async lg then
      set_heap (<[l := with_queue (lg_queue lg ++ [m]) lg]> (heap w)) w
    else
      let '(ss, w1) := sinks_log m (lg_sinks lg) w in
      set_heap (<[l := with_sinks ss lg]> (heap w1)) w1.

(** Modelled from the spec: flush is a queue barrier for an async logger (the
    queue is drained into the sinks); buffering inside a sink is not
    modelled. *)
Definition logger_flush (l : nat) (lg : logger) (w : world) : world :=
  if lg_async lg then
    let '(ss, w1) := drain (lg_queue lg) (lg_sinks lg) w in
    set_heap (<[l := with_queue [] (with_sinks ss lg)]> (heap w1)) w1
  else w.

Definition logger_set_level (n : Z) (l : nat) (lg : logger) (w : world) : world :=
  set_heap (<[l := with_level n lg]> (heap w)) w.

Definition logger_set_formatter (f : formatter) (l : nat) (lg : logger)
    (w : world) : world :=
  set_heap (<[l := with_sinks (with_formatter f <$> lg_sinks lg) lg]> (heap w)) w.

(** Modelled from the spec: setting a pattern fails for a pattern with an
    unknown placeholder and installs nothing then. *)
Definition logger_set_pattern (pattern : string) (l : nat) (lg : logger)
    (w : world) : option world :=
  if pattern_ok pattern
  then Some (logger_set_formatter (pattern_formatter pattern) l lg w)
  else None.

(** Modelled from the spec: the registry operations the binding calls.
    [drop] removes the entry of a name and does nothing when there is none;
    the logger itself stays with whoever still holds it (what happens to a
    logger that nobody holds any more is outside the model). *)
Definition spdlog_get (n : string) (w : world) : option nat := registry w !! n.

Definition spdlog_drop (n : string) (w : world) : world :=
  set_registry (delete n (registry w)) w.

Definition spdlog_set_level (n : Z) (w : world) : world :=
  set_global_log_level n w.

Definition spdlog_flush_on (n : Z) (w : world) : world :=
  set_global_flush_level n w.

(** Modelled from the spec: the registry enforces name uniqueness, so
    registering a logger under a name that is taken is refused with the
    library's exception; otherwise the logger is stored and registered. *)
Definition register_logger (lg : logger) (w : world) : (string + nat) * world :=
  match registry w !! lg_name lg with
  | Some _ =>
      (inl ("logger with name '" +:+ lg_name lg +:+ "' already exists"), w)
  | None =>
      let l := length (heap w) in
      (inr l,
       set_registry (<[lg_name lg := l]> (registry w))
                    (set_heap (heap w ++ [lg]) w))
  end.

Definition new_logger (async : bool) (n : string) (target : sink_kind) : logger :=
  {| lg_name := n; lg_level := None;
     lg_sinks := [ {| sink_level := level.trace;
                      sink_formatter := pattern_formatter default_pattern;
                      sink_target := target |} ];
     lg_async := async; lg_queue := [] |}.

(** Modelled from the spec: the logger factories.  [async] tells whether the
    async factory is used.  The rotating factory opens (or creates) the base
    file, which fails for a path the disk refuses. *)
Definition rotating_logger_st (async : bool) (logger_name filename : string)
    (max_file_size max_files : Z) (w : world) : (string + nat) * world :=
  match disk_errors w !! filename with
  | Some what => (inl what, w)
  | None =>
      let '(rs, fam) :=
        RotatingSink.create filename max_file_size max_files
                            (default ∅ (disk w !! filename)) in
      register_logger (new_logger async logger_name (rotating_file_sink rs))
                      (set_disk (<[filename := fam]> (disk w)) w)
  end.

Definition stdout_logger_st (async : bool) (logger_name : string) (w : world)
  : (string + nat) * world :=
  register_logger (new_logger async logger_name stdout_sink) w.

(** ** The binding: [src/logger.cc] *)

(** [NAN_METHOD(setLevel)]: the process-wide [setLevel]. *)
Definition setLevel (info : list js_value) (w : world) : completion * world :=
  if negb (IsNumber (arg info 0)) then (Throw "Provide level", w)
  else
    let levelNumber := To_int64 (arg info 0) in
    if (levelNumber >=? level.n_levels) || (levelNumber <? level.trace)
    then (Throw "Invalid level", w)
    else (Return JsUndefined, spdlog_set_level levelNumber w).

(** [NAN_METHOD(setFlushOn)] *)
Definition setFlushOn (info : list js_value) (w : world) : completion * world :=
  if negb (IsNumber (arg info 0)) then (Throw "Provide flush level", w)
  else
    let levelNumber := To_int64 (arg info 0) in
    if (levelNumber >=? level.n_levels) || (levelNumber <? level.trace)
    then (Throw "Invalid level", w)
    else (Return JsUndefined, spdlog_flush_on levelNumber w).

(** [Nan::ObjectWrap::Unwrap<Logger>(info.This())] followed by the read of
    [obj->logger_]: [None] when [this] wraps no [Logger] (or the pointer
    dangles, which shared ownership excludes), [Some None] when [logger_] is
    [NULL], and otherwise the location of the logger and the logger. *)
Definition Unwrap (this : nat) (w : world) : option (option (nat * logger)) :=
  match wrapped w !! this with
  | None => None
  | Some None => Some None
  | Some (Some l) =>
      match heap w !! l with
      | Some lg => Some (Some (l, lg))
      | None => None
      end
  end.

(** [new Logger(logger)], [obj->Wrap(info.This())] and the return of
    [info.This()]. *)
Definition Wrap (l : nat) (w : world) : completion * world :=
  (Return (JsObject (length (wrapped w))),
   set_wrapped (wrapped w ++ [Some l]) w).

(** [Logger::~Logger] for the object [this]. *)
Definition Logger_destroy (this : nat) (w : world) : world :=
  match Unwrap this w with
  | Some (Some (l, lg)) =>
      set_wrapped (<[this := None]> (wrapped w)) (spdlog_drop (lg_name lg) w)
  | _ => w
  end.

(** The construct-call branch of [Logger::New] (the non-Windows file name). *)
Definition Logger_construct (info : list js_value) (w : world)
  : completion * world :=
  if negb (IsString (arg info 0)) then (Throw "Provide a logger name", w)
  else
    let name := Utf8String (arg info 0) in
    if String.eqb name "rotating" || String.eqb name "rotating_async" then
      if negb (IsString (arg info 1)) || negb (IsString (arg info 2)) then
        (Throw "Provide the log name and file name", w)
      else if negb (IsNumber (arg info 3)) || negb (IsNumber (arg info 4)) then
        (Throw "Provide the max size and max files", w)
      else
        let logName := Utf8String (arg info 1) in
        match spdlog_get logName w with
        | Some l => Wrap l w
        | None =>
            let fileName := Utf8String (arg info 2) in
            let created :=
              if String.eqb logName "rotating_async" then
                rotating_logger_st true logName fileName
                  (to_size_t (To_int64 (arg info 3)))
                  (to_size_t (To_int64 (arg info 4))) w
              else
                rotating_logger_st false logName fileName
                  (to_size_t (To_int64 (arg info 3)))
                  (to_size_t (To_int64 (arg info 4))) w in
            match created with
            | (inr l, w1) => Wrap l w1
            | (inl what, w1) => (Throw what, w1)
            end
        end
    else
      match stdout_logger_st true name w with
      | (inr l, w1) => Wrap l w1
      | (inl what, w1) => (Throw what, w1)
      end.

(** [Logger::New]: called without [new], the constructor is invoked with the
    first argument alone and [ToLocalChecked] takes its result. *)
Definition Logger_New (is_construct_call : bool) (info : list js_value)
    (w : world) : completion * world :=
  if is_construct_call then Logger_construct info w
  else
    match Logger_construct [arg info 0] w with
    | (Return v, w1) => (Return v, w1)
    | (_, w1) => (Abort, w1)
    end.

(** The body shared by [Logger::Critical], [Error], [Warn], [Info], [Debug]
    and [Trace], which differ in the level of the library call only. *)
Definition Logger_emit (lvl : Z) (this : nat) (info : list js_value)
    (w : world) : completion * world :=
  if negb (IsString (arg info 0)) then (Throw "Provide a message to log", w)
  else
    match Unwrap this w with
    | None => (Abort, w)
    | Some logger_ =>
        let message := Utf8String (arg info 0) in
        (Return (JsObject this),
         match logger_ with
         | Some (l, lg) => logger_log lvl message l lg w
         | None => w
         end)
    end.

Definition Logger_Critical := Logger_emit level.critical.
Definition Logger_Error := Logger_emit level.err.
Definition Logger_Warn := Logger_emit level.warn.
Definition Logger_Info := Logger_emit level.info.
Definition Logger_Debug := Logger_emit level.debug.
Definition Logger_Trace := Logger_emit level.trace.

(** [Logger::GetLevel]: the return value is set for a non-null [logger_]
    only. *)
Definition Logger_GetLevel (this : nat) (info : list js_value) (w : world)
  : completion * world :=
  match Unwrap this w with
  | None => (Abort, w)
  | Some (Some (l, lg)) => (Return (JsNumber (effective_level w lg)), w)
  | Some None => (Return JsUndefined, w)
  end.

(** [Logger::SetLevel] *)
Definition Logger_SetLevel (this : nat) (info : list js_value) (w : world)
  : completion * world :=
  if negb (IsNumber (arg info 0)) then (Throw "Provide level", w)
  else
    match Unwrap this w with
    | None => (Abort, w)
    | Some (Some (l, lg)) =>
        let levelNumber := To_int64 (arg info 0) in
        if (levelNumber >=? level.n_levels) || (levelNumber <? level.trace)
        then (Throw "Invalid level", w)
        else (Return (JsObject this), logger_set_level levelNumber l lg w)
    | Some None => (Return (JsObject this), w)
    end.

(** [Logger::Flush] *)
Definition Logger_Flush (this : nat) (info : list js_value) (w : world)
  : completion * world :=
  match Unwrap this w with
  | None => (Abort, w)
  | Some (Some (l, lg)) => (Return (JsObject this), logger_flush l lg w)
  | Some None => (Return (JsObject this), w)
  end.

(** [Logger::Drop]: the name is read, [logger_] is set to [NULL], the name is
    dropped from the registry. *)
Definition Logger_Drop (this : nat) (info : list js_value) (w : world)
  : completion * world :=
  match Unwrap this w with
  | None => (Abort, w)
  | Some (Some (l, lg)) =>
      let name := lg_name lg in
      (Return (JsObject this),
       spdlog_drop name (set_wrapped (<[this := None]> (wrapped w)) w))
  | Some None => (Return (JsObject this), w)
  end.

(** [Logger::SetPattern].  The method has no handler around the library
    call: an error the library raises for the pattern leaves the method as a
    C++ exception and ends the process. *)
Definition Logger_SetPattern (this : nat) (info : list js_value) (w : world)
  : completion * world :=
  if negb (IsString (arg info 0)) then (Throw "Provide pattern", w)
  else
    match Unwrap this w with
    | None => (Abort, w)
    | Some logger_ =>
        let pattern := Utf8String (arg info 0) in
        match logger_ with
        | Some (l, lg) =>
            match logger_set_pattern pattern l lg w with
            | Some w1 => (Return (JsObject this), w1)
            | None => (Abort, w)
            end
        | None => (Return (JsObject this), w)
        end
    end.

(** [Logger::ClearFormatters] (its local [pattern] is never used). *)
Definition Logger_ClearFormatters (this : nat) (info : list js_value)
    (w : world) : completion * world :=
  match Unwrap this w with
  | None => (Abort, w)
  | Some (Some (l, lg)) =>
      (Return (JsObject this), logger_set_formatter VoidFormatter l lg w)
  | Some None => (Return (JsObject this), w)
  end.

(** The prototype methods installed by [Logger::Init]. *)
Inductive method :=
| m_critical | m_error | m_warn | m_info | m_debug | m_trace
| m_getLevel | m_setLevel | m_flush | m_drop | m_setPattern
| m_clearFormatters.

Definition call (m : method) : nat → list js_value → world → completion * world :=
  match m with
  | m_critical => Logger_Critical
  | m_error => Logger_Error
  | m_warn => Logger_Warn
  | m_info => Logger_Info
  | m_debug => Logger_Debug
  | m_trace => Logger_Trace
  | m_getLevel => Logger_GetLevel
  | m_setLevel => Logger_SetLevel
  | m_flush => Logger_Flush
  | m_drop => Logger_Drop
  | m_setPattern => Logger_SetPattern
  | m_clearFormatters => Logger_ClearFormatters
  end.


(** the argument has the type the method asks for *)
Definition well_typed (m : method) (info : list js_value) : bool :=
  match m with
  | m_critical | m_error | m_warn | m_info | m_debug | m_trace | m_setPattern =>
      IsString (arg info 0)
  | m_setLevel => IsNumber (arg info 0)
  | m_getLevel | m_flush | m_drop | m_clearFormatters => true
  end.

(** ** Well-formed worlds *)

(** Shared ownership: what the registry and the wrapped objects point to is
    alive, and the registry files a logger under its own name. *)
Definition wf_world (w : world) : Prop :=
  (∀ n l, registry w !! n = Some l →
          ∃ lg, heap w !! l = Some lg ∧ lg_name lg = n) ∧
  (∀ h l, wrapped w !! h = Some (Some l) → is_Some (heap w !! l)).

(** a handle is live while its [logger_] is set, dropped once it is [NULL] *)
Definition live (this : nat) (w : world) : Prop :=
  ∃ l lg, Unwrap this w = Some (Some (l, lg)).

Definition dropped (this : nat) (w : world) : Prop :=
  Unwrap this w = Some None.

(** the methods that return the handle on a dropped handle *)
Definition self_returning_methods : list method :=
  [m_critical; m_error; m_warn; m_info; m_debug; m_trace; m_flush;
   m_setPattern; m_clearFormatters; m_setLevel].

(** the two kinds that take the rotating-file branch of [Logger::New] *)
Definition rotating_kind (kind : string) : Prop :=
  kind = "rotating" ∨ kind = "rotating_async".

(** the name under which [Logger::New] looks a logger up or has it
    registered: [logName] on the rotating branch, [name] on the other *)
Definition created_name (info : list js_value) : string :=
  let name := Utf8String (arg info 0) in
  if String.eqb name "rotating" || String.eqb name "rotating_async"
  then Utf8String (arg info 1)
  else name.

End Binding.

(** the sinks write to the standard output and the disk only *)
Definition same_store (w w' : world) : Prop :=
  registry w' = registry w ∧ heap w' = heap w ∧ wrapped w' = wrapped w.

(** A process in which nothing has been created yet. *)
Definition initial_world : world :=
  {| registry := ∅; heap := []; wrapped := [];
     global_log_level := level.info; global_flush_level := level.off;
     stdout := []; disk := ∅; disk_errors := ∅ |}.

(** a formatter for examples: the payload alone *)
Definition payload_only (pattern : string) (m : log_msg) : string := payload m.

(** a pattern check for examples: every pattern is accepted *)
Definition any_pattern (pattern : string) : bool := true.

(** the running example of the specification:
    [createLogger("rotating", "app", "/tmp/app.log", 1024, 3)] *)
Definition example_info : list js_value :=
  [JsString "rotating"; JsString "app"; JsString "/tmp/app.log";
   JsNumber 1024; JsNumber 3].

Definition example_world : world :=
  (Logger_New "%v" true example_info initial_world).2.

Definition example_logger : logger :=
  new_logger "%v" false "app"
    (rotating_file_sink (RotatingSink.mk "/tmp/app.log" 1024 3 0 0)).

(** ** The module as a whole *)

(** What the host can do with the module: call one of the two exported
    functions, call [Logger] with or without [new], call a prototype method
    on an object, or collect an object, which runs its destructor. *)
Inductive entry :=
| e_setLevel (info : list js_value)
| e_setFlushOn (info : list js_value)
| e_New (is_construct_call : bool) (info : list js_value)
| e_call (m : method) (this : nat) (info : list js_value)
| e_destroy (this : nat).

Definition step (render : string → log_msg → string)
    (pattern_ok : string → bool) (default_pattern : string)
    (e : entry) (w : world) : completion * world :=
  match e with
  | e_setLevel info => setLevel info w
  | e_setFlushOn info => setFlushOn info w
  | e_New is_construct_call info =>
      Logger_New default_pattern is_construct_call info w
  | e_call m this info => call render pattern_ok m this info w
  | e_destroy this => (Return JsUndefined, Logger_destroy this w)
  end.

(** the world after a sequence of entries, whatever each of them returned *)
Definition run_entries (render : string → log_msg → string)
    (pattern_ok : string → bool) (default_pattern : string)
    (es : list entry) (w : world) : world :=
  foldl (λ w e, (step render pattern_ok default_pattern e w).2) w es.

(** the message of the type check a method starts with *)
Definition type_error (m : method) : string :=
  match m with
  | m_critical | m_error | m_warn | m_info | m_debug | m_trace =>
      "Provide a message to log"
  | m_setLevel => "Provide level"
  | m_setPattern => "Provide pattern"
  | m_getLevel | m_flush | m_drop | m_clearFormatters => ""
  end.

(** the entries that create or release a logger: [Logger::New], [drop()]
    and the destructor *)
Definition creates_or_releases (e : entry) : bool :=
  match e with
  | e_New _ _ | e_call m_drop _ _ | e_destroy _ => true
  | _ => false
  end.

(** what stays of a logger for as long as it lives *)
Definition same_identity (lg lg' : logger) : Prop :=
  lg_name lg' = lg_name lg ∧ lg_async lg' = lg_async lg ∧
  length (lg_sinks lg') = length (lg_sinks lg).

(** the state of the rotating sink of the logger at a location: the sink and
    the files of its base path on the disk *)
Definition rotating_state (l : nat) (w : world)
  : option (RotatingSink.t * gmap nat (list string)) :=
  match heap w !! l with
  | Some lg =>
      match lg_sinks lg with
      | [sk] =>
          match sink_target sk with
          | rotating_file_sink rs =>
              Some (rs, default ∅ (disk w !! RotatingSink.base_filename rs))
          | stdout_sink => None
          end
      | _ => None
      end
  | None => None
  end.

(** a sequence of emit calls, each with its level and its string argument,
    on one handle *)
Definition emit_all (render : string → log_msg → string) (this : nat)
    (calls : list (Z * string)) (w : world) : world :=
  foldl (λ w c, (Logger_emit render c.1 this [JsString c.2] w).2) w calls.

(** the formatted records of those calls that pass the level of a logger
    (at the process-wide default) and of its sink (at trace) *)
Definition written (render : string → log_msg → string)
    (default_pattern name : string) (global : Z) (calls : list (Z * string))
  : list string :=
  omap (λ c : Z * string,
          if (c.1 <? global) || (c.1 <? level.trace) then None
          else Some (render default_pattern
                       {| logger_name := name; msg_level := c.1;
                          payload := c_str c.2 |})) calls.

(** a string with a NUL and more text behind it *)
Definition nul_suffixed (s : string) : string :=
  (s ++ String Ascii.zero "x")%string.

(** entries between two creation calls: a logging call, the creation of a
    console logger and the exported [setLevel] *)
Definition example_entries : list entry :=
  [e_call m_info 0 [JsString "x"]; e_New true [JsString "console"];
   e_setLevel [JsNumber 4]].

(** a second example: two handles to the logger "app", the first of them
    dropped, then a new logger "app" created *)
Definition stale_world : world :=
  run_entries payload_only any_pattern "%v"
    [e_New true example_info; e_New true example_info;
     e_call m_drop 0 []; e_New true example_info] initial_world.

(** * Properties *)

(** ** The rotating file sink *)

Section rotating_sink_facts.
Import RotatingSink.
Implicit Types (fam : gmap nat (list string)) (s : RotatingSink.t).

Lemma write_length_pos text : 0 < write_length text.
Proof. unfold write_length. lia. Qed.







(** the trace ends with the result of the loop *)
Lemma shift_trace_last n fam :
  last (shift_trace n fam) = Some (shift_files n fam).
Proof.
  revert fam. induction n as [|n IH]; intros fam; [done|].
  cbn [shift_trace shift_files]. rewrite <- IH.
  by destruct n.
Qed.





(** the configuration of a sink never changes *)
Lemma write_config text s fam :
  base_filename (write text s fam).1 = base_filename s ∧
  max_size (write text s fam).1 = max_size s ∧
  max_files (write text s fam).1 = max_files s.
Proof. unfold write. destruct (would_exceed s text); done. Qed.




(** the size bound survives a write of a record that fits a file *)
Lemma write_size_bound text s fam :
  write_length text ≤ max_size s → current_size s ≤ max_size s →
  current_size (write text s fam).1 ≤ max_size s.
Proof.
  intros Hlen Hcur. unfold write.
  destruct (would_exceed s text) eqn:Hex; simpl; [lia|].
  unfold would_exceed in Hex. apply bool_decide_eq_false in Hex. lia.
Qed.

End rotating_sink_facts.

Section rotating_run_facts.
Import RotatingSink.
Implicit Types (fam : gmap nat (list string)) (s : RotatingSink.t).








End rotating_run_facts.




(** the same through the binding: a synchronous rotating logger with
    maxSize 10 that is given one record of 20 bytes has counted 21 bytes *)
Example rotating_logger_oversized_record :
  let w1 := (Logger_New "%v" true
               [JsString "rotating"; JsString "app"; JsString "/tmp/app.log";
                JsNumber 10; JsNumber 3] initial_world).2 in
  let w2 := (Logger_Info payload_only 0 [JsString "aaaaaaaaaaaaaaaaaaaa"] w1).2 in
  (λ lg, sink_target <$> lg_sinks lg) <$> heap w2 !! 0%nat
  = Some [rotating_file_sink (RotatingSink.mk "/tmp/app.log" 10 3 21 1)].
Proof. vm_compute. reflexivity. Qed.

(** ** Level numbers *)

Lemma To_int64_in_range (z : Z) :
  INT64_MIN ≤ z ≤ INT64_MAX → To_int64 (JsNumber z) = z.
Proof. unfold To_int64. lia. Qed.

(** the range check of the source accepts exactly [trace .. off] *)
Lemma level_check_accepts (z : Z) :
  level.trace ≤ z ≤ level.off →
  To_int64 (JsNumber z) = z ∧
  (To_int64 (JsNumber z) >=? level.n_levels)
    || (To_int64 (JsNumber z) <? level.trace) = false.
Proof.
  unfold level.trace, level.off, level.n_levels. intros Hz.
  assert (E : To_int64 (JsNumber z) = z).
  { apply To_int64_in_range. unfold INT64_MIN, INT64_MAX. lia. }
  rewrite E. split; [done|]. apply orb_false_iff. lia.
Qed.

Lemma level_check_rejects (z : Z) :
  z < level.trace ∨ level.off < z →
  (To_int64 (JsNumber z) >=? level.n_levels)
    || (To_int64 (JsNumber z) <? level.trace) = true.
Proof.
  unfold level.trace, level.off, level.n_levels, To_int64, INT64_MIN, INT64_MAX.
  intros Hz. apply orb_true_iff. lia.
Qed.

Lemma arg_head (v : js_value) (rest : list js_value) : arg (v :: rest) 0 = v.
Proof. reflexivity. Qed.

(** read the first argument and decide its type test *)
Ltac first_arg := rewrite ?arg_head; cbn [IsNumber IsString negb].

(** ** Wrapped objects and the heap *)

Lemma Unwrap_live_inv this w l lg :
  Unwrap this w = Some (Some (l, lg)) →
  wrapped w !! this = Some (Some l) ∧ heap w !! l = Some lg.
Proof.
  unfold Unwrap. intros H.
  destruct (wrapped w !! this) as [[l'|]|] eqn:E; try done.
  destruct (heap w !! l') as [lg'|] eqn:E'; try done.
  by injection H as -> ->.
Qed.

Lemma Unwrap_dropped_inv this w :
  Unwrap this w = Some None → wrapped w !! this = Some None.
Proof.
  unfold Unwrap. intros H.
  destruct (wrapped w !! this) as [[l'|]|] eqn:E; try done.
  by destruct (heap w !! l').
Qed.

Lemma Unwrap_live_intro this w l lg :
  wrapped w !! this = Some (Some l) → heap w !! l = Some lg →
  Unwrap this w = Some (Some (l, lg)).
Proof. unfold Unwrap. by intros -> ->. Qed.

(** after [logger_ = NULL] the object is a dropped handle *)
Lemma Unwrap_after_null this w w' :
  is_Some (wrapped w !! this) →
  wrapped w' = <[this := None]> (wrapped w) →
  Unwrap this w' = Some None.
Proof.
  intros [x Hx] Hw. unfold Unwrap. rewrite Hw.
  rewrite list_lookup_insert_eq; [done|]. by eapply lookup_lt_Some.
Qed.

(** a level set on the shared logger is what every handle to it reads *)
Lemma Unwrap_after_set_level this w l lg l' lg' n :
  Unwrap this w = Some (Some (l, lg)) → heap w !! l' = Some lg' →
  Unwrap this (logger_set_level n l' lg' w)
  = Some (Some (l, if decide (l' = l) then with_level n lg' else lg)).
Proof.
  intros Hu Hl'. apply Unwrap_live_inv in Hu as [Hh Hl].
  unfold Unwrap, logger_set_level. simpl. rewrite Hh.
  destruct (decide (l' = l)) as [->|Hne].
  - rewrite list_lookup_insert_eq; [done|]. by eapply lookup_lt_Some.
  - rewrite list_lookup_insert_ne by done. by rewrite Hl.
Qed.

(** ** The methods of a handle *)

Section binding_facts.
Variable render : string → log_msg → string.
Variable pattern_ok : string → bool.
Variable default_pattern : string.

(** C2 (amended): for every integer n outside [trace, off] (n < trace or
    n > off), [setLevel(n)] changes nothing, on any handle; on a live handle
    it fails with "Invalid level", so the logger's level after the failed call
    is its level before; on a dropped handle the range is not checked and the
    handle is returned. *)
Theorem C2_setLevel_out_of_range (this : nat) (n : Z) (rest : list js_value)
    (w : world) :
  n < level.trace ∨ level.off < n →
  (Logger_SetLevel this (JsNumber n :: rest) w).2 = w ∧
  (live this w →
   Logger_SetLevel this (JsNumber n :: rest) w = (Throw "Invalid level", w) ∧
   Logger_GetLevel this [] (Logger_SetLevel this (JsNumber n :: rest) w).2
   = Logger_GetLevel this [] w) ∧
  (dropped this w →
   Logger_SetLevel this (JsNumber n :: rest) w = (Return (JsObject this), w)).
Proof.
  intros Hn. pose proof (level_check_rejects n Hn) as Hc.
  unfold Logger_SetLevel, live, dropped. first_arg.
  destruct (Unwrap this w) as [[[l lg]|]|] eqn:Hu.
  - rewrite Hc. split; [done|]. split; [done|]. done.
  - split; [done|]. split; [|done]. by intros (? & ? & ?).
  - split; [done|]. split; [|done]. by intros (? & ? & ?).
Qed.

(** a level set through one handle is read through every handle to the same
    logger *)
Lemma SetLevel_then_GetLevel_shared (h h' l : nat) (lg : logger) (L : Z)
    (rest info : list js_value) (w : world) :
  Unwrap h w = Some (Some (l, lg)) →
  Unwrap h' w = Some (Some (l, lg)) →
  level.trace ≤ L ≤ level.off →
  (Logger_SetLevel h (JsNumber L :: rest) w).1 = Return (JsObject h) ∧
  Logger_GetLevel h' info (Logger_SetLevel h (JsNumber L :: rest) w).2
  = (Return (JsNumber L), (Logger_SetLevel h (JsNumber L :: rest) w).2).
Proof.
  intros Hu Hu' HL.
  destruct (level_check_accepts L HL) as [E Hc].
  unfold Logger_SetLevel. first_arg.
  rewrite Hu, Hc, E. cbn [fst snd]. split; [done|].
  unfold Logger_GetLevel.
  destruct (Unwrap_live_inv _ _ _ _ Hu) as [_ Hl].
  rewrite (Unwrap_after_set_level h' w l lg l lg L Hu' Hl).
  rewrite decide_True by done. done.
Qed.

(** C4: on a live handle, [setLevel(L)] with a valid level L (trace to off)
    returns the handle, and [getLevel()] then returns exactly L. *)
Theorem C4_setLevel_getLevel (this : nat) (L : Z) (rest info : list js_value)
    (w : world) :
  live this w →
  level.trace ≤ L ≤ level.off →
  (Logger_SetLevel this (JsNumber L :: rest) w).1 = Return (JsObject this) ∧
  Logger_GetLevel this info (Logger_SetLevel this (JsNumber L :: rest) w).2
  = (Return (JsNumber L), (Logger_SetLevel this (JsNumber L :: rest) w).2).
Proof.
  intros (l & lg & Hu) HL.
  by apply (SetLevel_then_GetLevel_shared this this l lg).
Qed.


(** C7: [drop()] on a live handle returns the handle, leaves no entry under
    the logger's name in the registry and nulls the handle; a second
    [drop()] returns the handle again and changes nothing; no [drop()] ever
    throws; and the destructor leaves no entry under the name either. *)
Theorem C7_drop_idempotent (this l : nat) (lg : logger)
    (info info' : list js_value) (w : world) :
  Unwrap this w = Some (Some (l, lg)) →
  (Logger_Drop this info w).1 = Return (JsObject this) ∧
  registry (Logger_Drop this info w).2 !! lg_name lg = None ∧
  dropped this (Logger_Drop this info w).2 ∧
  Logger_Drop this info' (Logger_Drop this info w).2
  = (Return (JsObject this), (Logger_Drop this info w).2) ∧
  (∀ this' w' msg, (Logger_Drop this' info w').1 ≠ Throw msg) ∧
  registry (Logger_destroy this w) !! lg_name lg = None.
Proof.
  intros Hu. destruct (Unwrap_live_inv _ _ _ _ Hu) as [Hh Hl].
  assert (Hd : dropped this (Logger_Drop this info w).2).
  { unfold Logger_Drop. rewrite Hu. simpl.
    apply (Unwrap_after_null this w); [by rewrite Hh|done]. }
  split; [unfold Logger_Drop; by rewrite Hu|].
  split; [unfold Logger_Drop; rewrite Hu; simpl; apply lookup_delete_eq|].
  split; [done|].
  split.
  { unfold dropped in Hd. unfold Logger_Drop at 1. by rewrite Hd. }
  split.
  { intros this' w' msg. unfold Logger_Drop.
    by destruct (Unwrap this' w') as [[[? ?]|]|]. }
  unfold Logger_destroy. rewrite Hu. simpl. apply lookup_delete_eq.
Qed.

(** C8: [setGlobalLevel(n)] and [setGlobalFlushOn(n)] fail with
    "Invalid level" for every integer n outside the level range (n < trace or
    n > off) and leave the world, so the global defaults, unchanged; for
    every n in the range they succeed and the process-wide default level,
    respectively flush threshold, is n. *)
Theorem C8_global_level_range (n : Z) (rest : list js_value) (w : world) :
  (n < level.trace ∨ level.off < n →
   setLevel (JsNumber n :: rest) w = (Throw "Invalid level", w) ∧
   setFlushOn (JsNumber n :: rest) w = (Throw "Invalid level", w)) ∧
  (level.trace ≤ n ≤ level.off →
   (setLevel (JsNumber n :: rest) w).1 = Return JsUndefined ∧
   global_log_level (setLevel (JsNumber n :: rest) w).2 = n ∧
   global_flush_level (setLevel (JsNumber n :: rest) w).2
   = global_flush_level w ∧
   (setFlushOn (JsNumber n :: rest) w).1 = Return JsUndefined ∧
   global_flush_level (setFlushOn (JsNumber n :: rest) w).2 = n ∧
   global_log_level (setFlushOn (JsNumber n :: rest) w).2
   = global_log_level w).
Proof.
  split.
  - intros Hn. pose proof (level_check_rejects n Hn) as Hc.
    unfold setLevel, setFlushOn. first_arg. by rewrite Hc.
  - intros Hn. destruct (level_check_accepts n Hn) as [E Hc].
    unfold setLevel, setFlushOn. first_arg. by rewrite Hc, E.
Qed.

(** C9: once [drop()] has been called on a handle, each of critical, error,
    warn, info, debug, trace, flush, setPattern, clearFormatters and setLevel
    with a well-typed argument returns the handle itself and leaves the world
    unchanged: nothing is logged, nothing changes, nothing is thrown. *)
Theorem C9_dropped_handle_is_inert (this : nat) (info0 : list js_value)
    (w : world) (m : method) (info : list js_value) :
  is_Some (Unwrap this w) →
  m ∈ self_returning_methods →
  well_typed m info = true →
  call render pattern_ok m this info (Logger_Drop this info0 w).2
  = (Return (JsObject this), (Logger_Drop this info0 w).2).
Proof.
  intros [u Hu] Hm Hty.
  assert (Hd : Unwrap this (Logger_Drop this info0 w).2 = Some None).
  { unfold Logger_Drop. rewrite Hu. destruct u as [[l lg]|]; simpl; [|done].
    destruct (Unwrap_live_inv _ _ _ _ Hu) as [Hh _].
    apply (Unwrap_after_null this w); [by rewrite Hh|done]. }
  set (w1 := (Logger_Drop this info0 w).2) in Hd |- *. clearbody w1.
  unfold self_returning_methods in Hm.
  repeat (apply elem_of_cons in Hm as [->|Hm];
          [simpl in Hty |- *;
           unfold Logger_Critical, Logger_Error, Logger_Warn, Logger_Info,
             Logger_Debug, Logger_Trace, Logger_emit, Logger_Flush,
             Logger_SetPattern, Logger_ClearFormatters, Logger_SetLevel;
           rewrite ?Hty, ?Hd; reflexivity|]).
  by apply elem_of_nil in Hm.
Qed.

(** C10: [getLevel()] on a dropped handle sets no return value (the caller
    sees undefined), changes nothing and throws nothing; on a live handle it
    returns the current level of the logger, a number. *)
Theorem C10_getLevel (this : nat) (info : list js_value) (w : world) :
  (dropped this w → Logger_GetLevel this info w = (Return JsUndefined, w)) ∧
  (∀ l lg, Unwrap this w = Some (Some (l, lg)) →
     Logger_GetLevel this info w
     = (Return (JsNumber (effective_level w lg)), w)).
Proof.
  unfold dropped, Logger_GetLevel. split.
  - by intros ->.
  - by intros l lg ->.
Qed.

(** ** Construction *)

(** the two kind strings hold no NUL *)
Lemma c_str_rotating_kind (kind : string) :
  rotating_kind kind → rotating_kind (c_str kind).
Proof. by intros [-> | ->]; [left | right]. Qed.

Lemma rotating_kind_eqb (kind : string) :
  rotating_kind kind →
  String.eqb kind "rotating" || String.eqb kind "rotating_async" = true.
Proof. by intros [-> | ->]. Qed.

(** [Logger::New] on the rotating branch: an existing logger of that name is
    wrapped again; otherwise the factory is chosen by comparing the log name,
    not the kind, with "rotating_async".  Kind, name and file name are the
    texts of the arguments up to their first NUL. *)
Lemma construct_rotating (kind logName fileName : string) (size files : Z)
    (w : world) :
  rotating_kind (c_str kind) →
  Logger_construct default_pattern
    [JsString kind; JsString logName; JsString fileName;
     JsNumber size; JsNumber files] w
  = match registry w !! c_str logName with
    | Some l => Wrap l w
    | None =>
        match rotating_logger_st default_pattern
                (String.eqb (c_str logName) "rotating_async")
                (c_str logName) (c_str fileName)
                (to_size_t (To_int64 (JsNumber size)))
                (to_size_t (To_int64 (JsNumber files))) w with
        | (inr l, w1) => Wrap l w1
        | (inl what, w1) => (Throw what, w1)
        end
    end.
Proof.
  intros Hk. unfold Logger_construct, spdlog_get.
  first_arg. cbn [Utf8String]. rewrite (rotating_kind_eqb _ Hk).
  change (arg _ 1) with (JsString logName).
  change (arg _ 2) with (JsString fileName).
  change (arg _ 3) with (JsNumber size).
  change (arg _ 4) with (JsNumber files).
  cbn [IsString IsNumber negb orb Utf8String].
  destruct (registry w !! c_str logName); [done|].
  by destruct (String.eqb (c_str logName) "rotating_async").
Qed.

(** what a successful construction on the rotating branch leaves behind *)
Lemma construct_rotating_registered (kind logName fileName : string)
    (size files : Z) (h : nat) (w w1 : world) :
  wf_world w → rotating_kind (c_str kind) →
  Logger_construct default_pattern
    [JsString kind; JsString logName; JsString fileName;
     JsNumber size; JsNumber files] w = (Return (JsObject h), w1) →
  h = length (wrapped w) ∧
  ∃ l lg, registry w1 !! c_str logName = Some l ∧ heap w1 !! l = Some lg ∧
          wrapped w1 !! h = Some (Some l) ∧ lg_name lg = c_str logName.
Proof.
  intros [Hreg Hobj] Hk. rewrite (construct_rotating _ _ _ _ _ _ Hk).
  destruct (registry w !! c_str logName) as [l|] eqn:Hr.
  - unfold Wrap. intros [= <- <-]. split; [done|].
    destruct (Hreg _ _ Hr) as (lg & Hl & Hn).
    exists l, lg. simpl. split; [done|]. split; [done|].
    split; [|done]. by rewrite lookup_app_r, Nat.sub_diag by lia.
  - unfold rotating_logger_st.
    destruct (disk_errors w !! c_str fileName) as [what|]; [done|].
    destruct (RotatingSink.create _ _ _ _) as [rs fam].
    unfold register_logger. cbn [registry set_disk new_logger lg_name].
    rewrite Hr. unfold Wrap. cbn [wrapped set_registry set_heap set_disk heap].
    intros [= <- <-]. split; [done|].
    eexists (length (heap w)), _. cbn.
    split; [apply lookup_insert_eq|].
    split; [by rewrite lookup_app_r, Nat.sub_diag by lia|].
    split; [|done]. by rewrite lookup_app_r, Nat.sub_diag by lia.
Qed.

(** ** Well-formedness is an invariant *)

Lemma sink_log_store m s w : same_store w (sink_log render m s w).2.
Proof.
  unfold sink_log. destruct (msg_level m <? sink_level s); [done|].
  destruct (sink_target s) as [|rs]; [done|].
  by destruct (RotatingSink.write _ _ _).
Qed.

Lemma sinks_log_store m ss w : same_store w (sinks_log render m ss w).2.
Proof.
  revert w. induction ss as [|s ss IH]; intros w; [done|]. simpl.
  pose proof (sink_log_store m s w) as H1.
  destruct (sink_log render m s w) as [s' w1]. simpl in H1.
  pose proof (IH w1) as H2.
  destruct (sinks_log render m ss w1) as [ss' w2].
  unfold same_store in H1, H2 |- *. simpl in H1, H2 |- *.
  destruct H1 as (E1 & E2 & E3), H2 as (F1 & F2 & F3).
  repeat split; congruence.
Qed.

Lemma drain_store q ss w : same_store w (drain render q ss w).2.
Proof.
  revert ss w. induction q as [|m q IH]; intros ss w; [done|]. simpl.
  pose proof (sinks_log_store m ss w) as H1.
  destruct (sinks_log render m ss w) as [ss1 w1]. simpl in H1.
  pose proof (IH ss1 w1) as H2. unfold same_store in H1, H2 |- *.
  destruct H1 as (E1 & E2 & E3), H2 as (F1 & F2 & F3).
  repeat split; congruence.
Qed.

Lemma wf_same_store w w' : same_store w w' → wf_world w → wf_world w'.
Proof. intros (Hr & Hh & Hw) [H1 H2]. split; rewrite ?Hr, ?Hh, ?Hw; done. Qed.

(** replacing a logger in place by one of the same name *)
Lemma wf_update l lg lg' w :
  wf_world w → heap w !! l = Some lg → lg_name lg' = lg_name lg →
  wf_world (set_heap (<[l := lg']> (heap w)) w).
Proof.
  intros [H1 H2] Hl Hn. split; simpl.
  - intros n l0 Hr. destruct (H1 _ _ Hr) as (lg0 & Hl0 & Hn0).
    destruct (decide (l = l0)) as [->|Hne].
    + exists lg'. rewrite list_lookup_insert_eq by by eapply lookup_lt_Some.
      split; [done|]. congruence.
    + exists lg0. by rewrite list_lookup_insert_ne.
  - intros h l0 Hh. apply H2 in Hh. apply lookup_lt_is_Some.
    rewrite length_insert. by apply lookup_lt_is_Some.
Qed.

Lemma wf_null this w :
  wf_world w → wf_world (set_wrapped (<[this := None]> (wrapped w)) w).
Proof.
  intros [H1 H2]. split; simpl; [done|]. intros h l Hh.
  destruct (decide (this = h)) as [->|Hne].
  - apply list_lookup_insert_Some in Hh as [(_ & ? & _)|[? ?]]; done.
  - rewrite list_lookup_insert_ne in Hh by done. by eapply H2.
Qed.

Lemma wf_spdlog_drop n w : wf_world w → wf_world (spdlog_drop n w).
Proof.
  intros [H1 H2]. split; simpl; [|done]. intros n0 l Hr.
  apply lookup_delete_Some in Hr as [_ Hr]. by apply H1.
Qed.

Lemma wf_Wrap l w :
  wf_world w → is_Some (heap w !! l) → wf_world (Wrap l w).2.
Proof.
  intros [H1 H2] Hl. split; simpl; [done|]. intros h l0 Hh.
  apply lookup_app_Some in Hh as [Hh|[_ Hh]]; [by eapply H2|].
  apply list_lookup_singleton_Some in Hh as [_ [= <-]]. done.
Qed.

Lemma wf_register_logger lg w :
  wf_world w → wf_world (register_logger lg w).2 ∧
  ∀ l, (register_logger lg w).1 = inr l →
       is_Some (heap (register_logger lg w).2 !! l).
Proof.
  intros [H1 H2]. unfold register_logger.
  destruct (registry w !! lg_name lg) eqn:Hr; [done|]. simpl. split.
  - split; simpl.
    + intros n l Hn. destruct (decide (lg_name lg = n)) as [<-|Hne].
      * rewrite lookup_insert_eq in Hn. injection Hn as <-. exists lg.
        by rewrite lookup_app_r, Nat.sub_diag by lia.
      * rewrite lookup_insert_ne in Hn by done.
        destruct (H1 _ _ Hn) as (lg0 & Hl0 & Hn0). exists lg0.
        by rewrite lookup_app_l by by eapply lookup_lt_Some.
    + intros h l Hh. apply H2 in Hh. apply lookup_lt_is_Some.
      rewrite length_app. apply lookup_lt_is_Some in Hh. lia.
  - intros l [= <-]. exists lg. by rewrite lookup_app_r, Nat.sub_diag by lia.
Qed.

Lemma wf_created (r : (string + nat) * world) :
  wf_world r.2 → (∀ l, r.1 = inr l → is_Some (heap r.2 !! l)) →
  wf_world (match r with
            | (inr l, w1) => Wrap l w1
            | (inl what, w1) => (Throw what, w1)
            end).2.
Proof.
  destruct r as [[what|l] w1]; simpl; intros Hwf Hl; [done|].
  apply wf_Wrap; [done|]. by apply Hl.
Qed.

Lemma wf_rotating_logger_st async n f size files w :
  wf_world w →
  wf_world (rotating_logger_st default_pattern async n f size files w).2 ∧
  ∀ l, (rotating_logger_st default_pattern async n f size files w).1 = inr l →
       is_Some (heap (rotating_logger_st default_pattern async n f size files w).2 !! l).
Proof.
  intros Hwf. unfold rotating_logger_st.
  destruct (disk_errors w !! f); [done|].
  destruct (RotatingSink.create _ _ _ _) as [rs fam].
  apply wf_register_logger. by apply (wf_same_store w).
Qed.

(** [Logger::New] keeps the world well-formed, whatever it is given *)
Theorem wf_Logger_New (is_construct_call : bool) (info : list js_value)
    (w : world) :
  wf_world w → wf_world (Logger_New default_pattern is_construct_call info w).2.
Proof.
  intros Hwf.
  assert (Hc : ∀ info, wf_world (Logger_construct default_pattern info w).2).
  { clear info. intros info. unfold Logger_construct.
    destruct (negb (IsString (arg info 0))); [done|].
    destruct (_ || _).
    - destruct (_ || _); [done|]. destruct (_ || _); [done|].
      unfold spdlog_get.
      destruct (registry w !! _) as [l|] eqn:Hr.
      + apply wf_Wrap; [done|]. destruct Hwf as [H1 _].
        destruct (H1 _ _ Hr) as (lg & -> & _). done.
      + destruct (String.eqb _ _);
          apply wf_created; by apply wf_rotating_logger_st.
    - apply wf_created; by apply wf_register_logger. }
  unfold Logger_New. destruct is_construct_call; [apply Hc|].
  specialize (Hc [arg info 0]).
  by destruct (Logger_construct _ _ _) as [[]].
Qed.

(** every method of a handle keeps the world well-formed *)
Theorem wf_call (m : method) (this : nat) (info : list js_value) (w : world) :
  wf_world w → wf_world (call render pattern_ok m this info w).2.
Proof.
  intros Hwf.
  assert (He : ∀ lvl, wf_world (Logger_emit render lvl this info w).2).
  { intros lvl. unfold Logger_emit.
    destruct (negb (IsString (arg info 0))); [done|].
    destruct (Unwrap this w) as [[[l lg]|]|] eqn:Hu; [|done..]. simpl.
    destruct (Unwrap_live_inv _ _ _ _ Hu) as [_ Hl].
    unfold logger_log. destruct (lvl <? _); [done|].
    destruct (lg_async lg); [by eapply wf_update|].
    pose proof (sinks_log_store
                  {| logger_name := lg_name lg; msg_level := lvl;
                     payload := Utf8String (arg info 0) |} (lg_sinks lg) w) as Hs.
    destruct (sinks_log _ _ _ _) as [ss w1]. simpl in Hs.
    apply (wf_update l lg); [by apply (wf_same_store w)| |done].
    destruct Hs as (_ & -> & _). done. }
  destruct m; simpl; try apply He.
  - unfold Logger_GetLevel. by destruct (Unwrap this w) as [[[l lg]|]|].
  - unfold Logger_SetLevel. destruct (negb _); [done|].
    destruct (Unwrap this w) as [[[l lg]|]|] eqn:Hu; [|done..].
    destruct (_ || _); [done|]. simpl.
    destruct (Unwrap_live_inv _ _ _ _ Hu) as [_ Hl]. by eapply wf_update.
  - unfold Logger_Flush.
    destruct (Unwrap this w) as [[[l lg]|]|] eqn:Hu; [|done..]. simpl.
    destruct (Unwrap_live_inv _ _ _ _ Hu) as [_ Hl].
    unfold logger_flush. destruct (lg_async lg); [|done].
    pose proof (drain_store (lg_queue lg) (lg_sinks lg) w) as Hs.
    destruct (drain _ _ _ _) as [ss w1]. simpl in Hs.
    apply (wf_update l lg); [by apply (wf_same_store w)| |done].
    destruct Hs as (_ & -> & _). done.
  - unfold Logger_Drop.
    destruct (Unwrap this w) as [[[l lg]|]|]; [|done..]. simpl.
    by apply wf_spdlog_drop, wf_null.
  - unfold Logger_SetPattern. destruct (negb _); [done|].
    destruct (Unwrap this w) as [[[l lg]|]|] eqn:Hu; [|done..].
    unfold logger_set_pattern. destruct (pattern_ok _); [|done]. simpl.
    destruct (Unwrap_live_inv _ _ _ _ Hu) as [_ Hl]. by eapply wf_update.
  - unfold Logger_ClearFormatters.
    destruct (Unwrap this w) as [[[l lg]|]|] eqn:Hu; [|done..]. simpl.
    destruct (Unwrap_live_inv _ _ _ _ Hu) as [_ Hl]. by eapply wf_update.
Qed.

End binding_facts.

Lemma wf_setLevel info w : wf_world w → wf_world (setLevel info w).2.
Proof.
  intros Hwf. unfold setLevel. destruct (negb _); [done|].
  by destruct (_ || _).
Qed.

Lemma wf_setFlushOn info w : wf_world w → wf_world (setFlushOn info w).2.
Proof.
  intros Hwf. unfold setFlushOn. destruct (negb _); [done|].
  by destruct (_ || _).
Qed.

Lemma wf_Logger_destroy this w : wf_world w → wf_world (Logger_destroy this w).
Proof.
  intros Hwf. unfold Logger_destroy.
  destruct (Unwrap this w) as [[[l lg]|]|]; [|done..].
  by apply (wf_null this (spdlog_drop (lg_name lg) w)), wf_spdlog_drop.
Qed.

Lemma wf_initial_world : wf_world initial_world.
Proof.
  split; simpl.
  - intros n l H. by rewrite lookup_empty in H.
  - intros h l H. by rewrite lookup_nil in H.
Qed.

(** ** The choice between the synchronous and the async path *)

(** the two paths of a record that passes the level gate *)
Lemma logger_log_async render lvl message l lg w :
  (lvl <? effective_level w lg) = false → lg_async lg = true →
  logger_log render lvl message l lg w
  = set_heap (<[l := with_queue
                       (lg_queue lg ++ [{| logger_name := lg_name lg;
                                           msg_level := lvl;
                                           payload := message |}]) lg]>
                (heap w)) w.
Proof. intros Hg Ha. unfold logger_log. by rewrite Hg, Ha. Qed.

Lemma logger_log_sync render lvl message l lg w :
  heap w !! l = Some lg →
  (lvl <? effective_level w lg) = false → lg_async lg = false →
  lg_queue <$> heap (logger_log render lvl message l lg w) !! l
  = Some (lg_queue lg) ∧
  (sinks_log render {| logger_name := lg_name lg; msg_level := lvl;
                       payload := message |} (lg_sinks lg) w).1
  = default [] (lg_sinks <$> heap (logger_log render lvl message l lg w) !! l).
Proof.
  intros Hl Hg Ha. unfold logger_log. rewrite Hg, Ha.
  pose proof (sinks_log_store render
                {| logger_name := lg_name lg; msg_level := lvl;
                   payload := message |} (lg_sinks lg) w) as Hs.
  destruct (sinks_log _ _ _ _) as [ss w1]. destruct Hs as (_ & Hh & _).
  simpl in *. rewrite Hh.
  rewrite list_lookup_insert_eq by by eapply lookup_lt_Some. done.
Qed.

(** C1 (the code at the failing input):
    [createLogger("rotating_async", "app", "/tmp/app.log", 1024, 3)] in a
    fresh process builds a synchronous logger: a record that passes the
    level gate is written to the file at once and the dispatch queue stays
    empty; and [createLogger("rotating", "rotating_async", ...)] builds an
    async logger, whose record waits in the queue.  The kind does not decide,
    the log name does. *)
Theorem C1_async_decided_by_log_name :
  let w1 := (Logger_New "%v" true
               [JsString "rotating_async"; JsString "app";
                JsString "/tmp/app.log"; JsNumber 1024; JsNumber 3]
               initial_world).2 in
  let w2 := (Logger_Critical payload_only 0 [JsString "x"] w1).2 in
  let v1 := (Logger_New "%v" true
               [JsString "rotating"; JsString "rotating_async";
                JsString "/tmp/app.log"; JsNumber 1024; JsNumber 3]
               initial_world).2 in
  let v2 := (Logger_Critical payload_only 0 [JsString "x"] v1).2 in
  (lg_async <$> heap w1 !! 0%nat) = Some false ∧
  (lg_queue <$> heap w2 !! 0%nat) = Some [] ∧
  disk w2 !! "/tmp/app.log" = Some {[0%nat := ["x"]]} ∧
  (lg_async <$> heap v1 !! 0%nat) = Some true ∧
  (lg_queue <$> heap v2 !! 0%nat)
  = Some [{| logger_name := "rotating_async"; msg_level := level.critical;
             payload := "x" |}] ∧
  disk v2 !! "/tmp/app.log" = Some {[0%nat := []]}.
Proof.
  cbn zeta. repeat split; vm_compute; reflexivity.
Qed.

(** ** Concrete runs *)

(** C2 (as stated, refuted): 6, the level off, lies outside [trace, off), yet
    on the live handle of the running example [setLevel(6)] does not fail: it
    returns the handle and the level, info before the call, is 6 after
    it. *)
Lemma C2_counterexample :
  ¬ (level.trace ≤ 6 < level.off) ∧
  live 0 example_world ∧
  (Logger_GetLevel 0 [] example_world).1 = Return (JsNumber level.info) ∧
  (Logger_SetLevel 0 [JsNumber 6] example_world).1 = Return (JsObject 0) ∧
  (Logger_GetLevel 0 [] (Logger_SetLevel 0 [JsNumber 6] example_world).2).1
  = Return (JsNumber 6).
Proof.
  split; [unfold level.off; lia|].
  split; [by exists 0%nat, example_logger|].
  repeat split; vm_compute; reflexivity.
Qed.

(** C3 (as stated, refuted): for the kind "console" the second creation call
    with the same arguments does not return a handle to the registered
    logger: it throws, and the world stays as the first call left it. *)
Lemma C3_counterexample :
  let r1 := Logger_New "%v" true [JsString "console"; JsString "app"]
              initial_world in
  r1.1 = Return (JsObject 0) ∧
  Logger_New "%v" true [JsString "console"; JsString "app"] r1.2
  = (Throw "logger with name 'console' already exists", r1.2).
Proof. cbn zeta. split; vm_compute; reflexivity. Qed.

Lemma example_world_live : Unwrap 0 example_world = Some (Some (0%nat, example_logger)).
Proof. vm_compute. reflexivity. Qed.

(** C2 at the running example: [setLevel(7)] on its live handle. *)
Lemma C2_setLevel_out_of_range_witness :
  (7 < level.trace ∨ level.off < 7) ∧
  live 0 example_world ∧
  Logger_SetLevel 0 [JsNumber 7] example_world
  = (Throw "Invalid level", example_world).
Proof.
  assert (Hn : 7 < level.trace ∨ level.off < 7) by (right; reflexivity).
  assert (Hl : live 0 example_world)
    by (exists 0%nat, example_logger; exact example_world_live).
  split; [exact Hn|]. split; [exact Hl|].
  destruct (C2_setLevel_out_of_range 0 7 [] example_world Hn) as (_ & H & _).
  exact (proj1 (H Hl)).
Defined.

(** the cut at the first NUL: the kind "rotating\0x" takes the rotating
    branch, and the name "app\0x" is the registered name "app" *)
Example New_arguments_cut_at_NUL :
  Logger_New "%v" true
    [JsString (nul_suffixed "rotating"); JsString (nul_suffixed "app");
     JsString (nul_suffixed "/tmp/app.log"); JsNumber 1024; JsNumber 3]
    initial_world
  = Logger_New "%v" true example_info initial_world ∧
  Logger_New "%v" true
    [JsString "rotating"; JsString (nul_suffixed "app");
     JsString "/tmp/other.log"; JsNumber 1; JsNumber 1] example_world
  = (Return (JsObject 1),
     set_wrapped (wrapped example_world ++ [Some 0%nat]) example_world).
Proof. split; vm_compute; reflexivity. Qed.

(** C4 at the running example: [setLevel(warn)] then [getLevel()]. *)
Lemma C4_setLevel_getLevel_witness :
  live 0 example_world ∧ level.trace ≤ level.warn ≤ level.off ∧
  (Logger_GetLevel 0 []
     (Logger_SetLevel 0 [JsNumber level.warn] example_world).2).1
  = Return (JsNumber level.warn).
Proof.
  assert (Hl : live 0 example_world)
    by (exists 0%nat, example_logger; exact example_world_live).
  assert (HL : level.trace ≤ level.warn ≤ level.off)
    by (split; discriminate).
  split; [exact Hl|]. split; [exact HL|].
  destruct (C4_setLevel_getLevel 0 level.warn [] [] example_world Hl HL)
    as [_ H].
  rewrite H. reflexivity.
Defined.


(** C7 at the running example: [drop()] twice. *)
Lemma C7_drop_idempotent_witness :
  Unwrap 0 example_world = Some (Some (0%nat, example_logger)) ∧
  registry example_world !! "app" = Some 0%nat ∧
  registry (Logger_Drop 0 [] example_world).2 !! "app" = None ∧
  Logger_Drop 0 [] (Logger_Drop 0 [] example_world).2
  = (Return (JsObject 0), (Logger_Drop 0 [] example_world).2).
Proof.
  split; [exact example_world_live|].
  split; [vm_compute; reflexivity|].
  destruct (C7_drop_idempotent 0 0 example_logger [] [] example_world
              example_world_live) as (_ & Hr & _ & Hd & _).
  split; [exact Hr | exact Hd].
Defined.

(** C8 at concrete numbers: 9 is refused, 6 (off) is accepted. *)
Lemma C8_global_level_range_witness :
  (9 < level.trace ∨ level.off < 9) ∧
  setLevel [JsNumber 9] initial_world = (Throw "Invalid level", initial_world) ∧
  level.trace ≤ 6 ≤ level.off ∧
  global_log_level (setLevel [JsNumber 6] initial_world).2 = 6 ∧
  global_flush_level (setFlushOn [JsNumber 6] initial_world).2 = 6.
Proof.
  assert (H9 : 9 < level.trace ∨ level.off < 9) by (right; reflexivity).
  assert (H6 : level.trace ≤ 6 ≤ level.off) by (split; discriminate).
  destruct (C8_global_level_range 9 [] initial_world) as [Hout _].
  destruct (C8_global_level_range 6 [] initial_world) as [_ Hin].
  destruct (Hout H9) as [Ha _]. destruct (Hin H6) as (_ & Hb & _ & _ & Hc & _).
  split; [exact H9|]. split; [exact Ha|]. split; [exact H6|].
  split; [exact Hb | exact Hc].
Defined.

(** C9 at the running example: [info("x")] after [drop()]. *)
Lemma C9_dropped_handle_is_inert_witness :
  is_Some (Unwrap 0 example_world) ∧
  m_info ∈ self_returning_methods ∧
  well_typed m_info [JsString "x"] = true ∧
  call payload_only any_pattern m_info 0 [JsString "x"] (Logger_Drop 0 [] example_world).2
  = (Return (JsObject 0), (Logger_Drop 0 [] example_world).2).
Proof.
  assert (Hu : is_Some (Unwrap 0 example_world))
    by (rewrite example_world_live; eexists; reflexivity).
  assert (Hm : m_info ∈ self_returning_methods)
    by (unfold self_returning_methods; set_solver).
  split; [exact Hu|]. split; [exact Hm|]. split; [reflexivity|].
  exact (C9_dropped_handle_is_inert payload_only any_pattern 0 [] example_world m_info
           [JsString "x"] Hu Hm eq_refl).
Defined.

(** C10 at the running example: [getLevel()] before and after [drop()]. *)
Lemma C10_getLevel_witness :
  dropped 0 (Logger_Drop 0 [] example_world).2 ∧
  Logger_GetLevel 0 [] (Logger_Drop 0 [] example_world).2
  = (Return JsUndefined, (Logger_Drop 0 [] example_world).2) ∧
  Logger_GetLevel 0 [] example_world
  = (Return (JsNumber level.info), example_world).
Proof.
  assert (Hd : dropped 0 (Logger_Drop 0 [] example_world).2)
    by (vm_compute; reflexivity).
  split; [exact Hd|]. split.
  - exact (proj1 (C10_getLevel 0 [] (Logger_Drop 0 [] example_world).2) Hd).
  - exact (proj2 (C10_getLevel 0 [] example_world) 0%nat example_logger
             example_world_live).
Defined.

(** * Further properties of the binding *)

Section construction_facts.
Variable default_pattern : string.

(** [Logger::New] validates its arguments in a fixed order and changes
    nothing when it rejects them: the first argument must be a string; for
    the kinds "rotating" and "rotating_async" (the text of the first argument
    up to its first NUL) the second and third must be strings, and only then
    the fourth and fifth must be numbers.  The checks
    come before the registry is consulted, so they apply to a name that is
    already registered too. *)
Theorem New_argument_errors (info : list js_value) (w : world) :
  (IsString (arg info 0) = false →
   Logger_New default_pattern true info w
   = (Throw "Provide a logger name", w)) ∧
  (∀ kind, arg info 0 = JsString kind → rotating_kind (c_str kind) →
     (IsString (arg info 1) && IsString (arg info 2) = false →
      Logger_New default_pattern true info w
      = (Throw "Provide the log name and file name", w)) ∧
     (IsString (arg info 1) && IsString (arg info 2) = true →
      IsNumber (arg info 3) && IsNumber (arg info 4) = false →
      Logger_New default_pattern true info w
      = (Throw "Provide the max size and max files", w))).
Proof.
  unfold Logger_New, Logger_construct. split.
  - by intros ->.
  - intros kind -> Hk.
    cbn [IsString negb Utf8String]. rewrite (rotating_kind_eqb _ Hk). split.
    + intros H. apply andb_false_iff in H.
      destruct H as [-> | ->]; cbn [negb orb]; [done|].
      by destruct (IsString (arg info 1)).
    + intros H1 H2. apply andb_true_iff in H1 as [-> ->]. cbn [negb orb].
      apply andb_false_iff in H2.
      destruct H2 as [-> | ->]; cbn [negb orb]; [done|].
      by destruct (IsNumber (arg info 3)).
Qed.

(** the constructor given a rotating kind and nothing else *)
Lemma construct_rotating_alone (kind : string) (w : world) :
  rotating_kind (c_str kind) →
  Logger_construct default_pattern [JsString kind] w
  = (Throw "Provide the log name and file name", w).
Proof.
  intros Hk. unfold Logger_construct.
  first_arg. cbn [Utf8String]. by rewrite (rotating_kind_eqb _ Hk).
Qed.

(** Called without [new], [Logger::New] hands only its first argument to the
    constructor: the outcome depends on that argument alone, a handle it
    returns is the one [new Logger(first)] returns, and for the kinds
    "rotating" and "rotating_async", which need four more arguments, the
    call never returns a handle: the constructor throws and the process dies
    in [ToLocalChecked], with the world as it was. *)
Theorem New_plain_call (info : list js_value) (w : world) :
  Logger_New default_pattern false info w
  = Logger_New default_pattern false [arg info 0] w ∧
  (∀ v w1, Logger_New default_pattern false info w = (Return v, w1) →
           Logger_New default_pattern true [arg info 0] w = (Return v, w1)) ∧
  (∀ kind, arg info 0 = JsString kind → rotating_kind (c_str kind) →
           Logger_New default_pattern false info w = (Abort, w)).
Proof.
  split; [done|]. split.
  - intros v w1. unfold Logger_New.
    by destruct (Logger_construct default_pattern [arg info 0] w) as [[]].
  - intros kind Hk Hr.
    pose proof (construct_rotating_alone kind w Hr) as Ha.
    unfold Logger_New. by rewrite Hk, Ha.
Qed.

(** what registering does, by its result *)
Lemma register_logger_outcome (lg : logger) (w : world) :
  match register_logger lg w with
  | (inl _, w') => w' = w ∧ is_Some (registry w !! lg_name lg)
  | (inr l, w') =>
      registry w !! lg_name lg = None ∧ l = length (heap w) ∧
      w' = set_registry (<[lg_name lg := l]> (registry w))
             (set_heap (heap w ++ [lg]) w)
  end.
Proof.
  unfold register_logger. destruct (registry w !! lg_name lg) eqn:Hr; [|done].
  split; [done|]. by eexists.
Qed.

(** wrapping a logger of a world whose heap has only grown keeps every
    handle as it was and makes the new handle live *)
Lemma Wrap_outcome (l : nat) (w w' : world) (ext : list logger) :
  wrapped w' = wrapped w → heap w' = heap w ++ ext →
  is_Some (heap w' !! l) →
  live (length (wrapped w)) (Wrap l w').2 ∧
  ∀ h, is_Some (Unwrap h w) → Unwrap h (Wrap l w').2 = Unwrap h w.
Proof.
  intros Hw Hh [lg Hl]. split.
  - exists l, lg. apply Unwrap_live_intro; [|done]. simpl.
    by rewrite Hw, lookup_app_r, Nat.sub_diag by lia.
  - intros h [u Hu]. unfold Unwrap in *. simpl. rewrite Hw, Hh.
    destruct (wrapped w !! h) as [o|] eqn:Ho; [|done].
    rewrite lookup_app_l by by eapply lookup_lt_Some. rewrite Ho.
    destruct o as [l0|]; [|done].
    destruct (heap w !! l0) as [lg0|] eqn:Hl0; [|done].
    by rewrite lookup_app_l, Hl0 by by eapply lookup_lt_Some.
Qed.

(** the construction of a rotating logger under a name that is free, with a
    file that can be opened *)
Lemma construct_rotating_fresh (kind logName fileName : string)
    (size files : Z) (w : world) :
  rotating_kind (c_str kind) → registry w !! c_str logName = None →
  disk_errors w !! c_str fileName = None →
  Logger_construct default_pattern
    [JsString kind; JsString logName; JsString fileName;
     JsNumber size; JsNumber files] w
  = let created :=
      RotatingSink.create (c_str fileName)
        (to_size_t (To_int64 (JsNumber size)))
        (to_size_t (To_int64 (JsNumber files)))
        (default ∅ (disk w !! c_str fileName)) in
    let lg := new_logger default_pattern
                (String.eqb (c_str logName) "rotating_async")
                (c_str logName) (rotating_file_sink created.1) in
    (Return (JsObject (length (wrapped w))),
     set_wrapped (wrapped w ++ [Some (length (heap w))])
       (set_registry (<[c_str logName := length (heap w)]> (registry w))
          (set_heap (heap w ++ [lg])
             (set_disk (<[c_str fileName := created.2]> (disk w)) w)))).
Proof.
  intros Hk Hr Hd. rewrite (construct_rotating _ _ _ _ _ _ _ Hk), Hr.
  unfold rotating_logger_st. rewrite Hd.
  unfold RotatingSink.create, register_logger.
  cbn [registry set_disk new_logger lg_name]. by rewrite Hr.
Qed.

Lemma construct_outcome (info : list js_value) (w : world) :
  wf_world w →
  match Logger_construct default_pattern info w with
  | (Return v, w1) =>
      v = JsObject (length (wrapped w)) ∧
      live (length (wrapped w)) w1 ∧
      ∀ h, is_Some (Unwrap h w) → Unwrap h w1 = Unwrap h w
  | (Throw _, w1) => w1 = w
  | (Abort, _) => False
  end.
Proof.
  intros [Hreg Hobj]. unfold Logger_construct.
  destruct (negb (IsString (arg info 0))); [done|].
  destruct (_ || _).
  - destruct (_ || _); [done|]. destruct (_ || _); [done|].
    unfold spdlog_get.
    destruct (registry w !! Utf8String (arg info 1)) as [l|] eqn:Hr.
    + split; [done|]. destruct (Hreg _ _ Hr) as (lg & Hl & _).
      apply (Wrap_outcome l w w []); [done|by rewrite app_nil_r|by eexists].
    + assert (Hf : ∀ async,
        match (match rotating_logger_st default_pattern async
                       (Utf8String (arg info 1)) (Utf8String (arg info 2))
                       (to_size_t (To_int64 (arg info 3)))
                       (to_size_t (To_int64 (arg info 4))) w with
               | (inr l, w1) => Wrap l w1
               | (inl what, w1) => (Throw what, w1)
               end) with
        | (Return v, w1) =>
            v = JsObject (length (wrapped w)) ∧
            live (length (wrapped w)) w1 ∧
            ∀ h, is_Some (Unwrap h w) → Unwrap h w1 = Unwrap h w
        | (Throw _, w1) => w1 = w
        | (Abort, _) => False
        end).
      { intros async. unfold rotating_logger_st.
        destruct (disk_errors w !! _); [done|].
        destruct (RotatingSink.create _ _ _ _) as [rs fam].
        match goal with |- context [register_logger ?lg ?w0] =>
          pose proof (register_logger_outcome lg w0) as Ho;
          destruct (register_logger lg w0) as [[what|l] w']
        end.
        - destruct Ho as [_ [x Hx]]. simpl in Hx. congruence.
        - destruct Ho as (_ & -> & ->). split; [done|].
          eapply (Wrap_outcome _ w); [done|reflexivity|].
          simpl. eexists. by rewrite lookup_app_r, Nat.sub_diag by lia. }
      destruct (String.eqb _ _); apply Hf.
  - unfold stdout_logger_st.
    match goal with |- context [register_logger ?lg ?w0] =>
      pose proof (register_logger_outcome lg w0) as Ho;
      destruct (register_logger lg w0) as [[what|l] w']
    end.
    + by destruct Ho as [-> _].
    + destruct Ho as (_ & -> & ->). split; [done|].
      eapply (Wrap_outcome _ w); [done|reflexivity|].
      simpl. eexists. by rewrite lookup_app_r, Nat.sub_diag by lia.
Qed.

(** In a well-formed world [Logger::New] either changes nothing at all (when
    it throws or the process dies) or returns a handle that did not exist
    before, which is live, while every handle that existed reads the same
    logger in the same state as before. *)
Theorem New_outcome (is_construct_call : bool) (info : list js_value)
    (w : world) :
  wf_world w →
  match Logger_New default_pattern is_construct_call info w with
  | (Return v, w1) =>
      v = JsObject (length (wrapped w)) ∧
      Unwrap (length (wrapped w)) w = None ∧
      live (length (wrapped w)) w1 ∧
      ∀ h, is_Some (Unwrap h w) → Unwrap h w1 = Unwrap h w
  | (_, w1) => w1 = w
  end.
Proof.
  intros Hwf.
  assert (Hnew : Unwrap (length (wrapped w)) w = None).
  { unfold Unwrap. by rewrite (proj2 (lookup_ge_None _ _)). }
  unfold Logger_New. destruct is_construct_call.
  - pose proof (construct_outcome info w Hwf) as H.
    destruct (Logger_construct default_pattern info w) as [[v|msg|] w1];
      [|done..]. destruct H as (? & ? & ?). done.
  - pose proof (construct_outcome [arg info 0] w Hwf) as H.
    destruct (Logger_construct default_pattern [arg info 0] w)
      as [[v|msg|] w1]; [|done..]. destruct H as (? & ? & ?). done.
Qed.

(** After [drop()] on a live handle, creating a rotating logger under the
    dropped logger's name (with a file that can be opened) does not find the
    old logger: it builds a new one at a new location, registers it under the
    name, and the new handle reads the process-wide default level and an
    empty queue, whatever the dropped logger's level was; the dropped handle
    stays dropped.  Kind, name and file name are the texts of the arguments
    up to their first NUL. *)
Theorem Drop_then_New_fresh (this l : nat) (lg : logger)
    (kind logName fileName : string) (size files : Z) (info0 : list js_value)
    (w : world) :
  Unwrap this w = Some (Some (l, lg)) → rotating_kind (c_str kind) →
  c_str logName = lg_name lg →
  disk_errors w !! c_str fileName = None →
  ∃ l2 lg2 w2,
    Logger_New default_pattern true
      [JsString kind; JsString logName; JsString fileName;
       JsNumber size; JsNumber files] (Logger_Drop this info0 w).2
    = (Return (JsObject (length (wrapped w))), w2) ∧
    Unwrap (length (wrapped w)) w2 = Some (Some (l2, lg2)) ∧
    l2 ≠ l ∧
    registry w2 !! lg_name lg = Some l2 ∧
    lg_name lg2 = lg_name lg ∧ lg_level lg2 = None ∧ lg_queue lg2 = [] ∧
    Logger_GetLevel (length (wrapped w)) [] w2
    = (Return (JsNumber (global_log_level w)), w2) ∧
    dropped this w2.
Proof.
  intros Hu Hk Hn Hd. destruct (Unwrap_live_inv _ _ _ _ Hu) as [Hh Hl].
  assert (Hlt : (this < length (wrapped w))%nat) by by eapply lookup_lt_Some.
  assert (Hllt : (l < length (heap w))%nat) by by eapply lookup_lt_Some.
  unfold Logger_Drop, Logger_New. rewrite Hu. cbn [snd].
  rewrite construct_rotating_fresh;
    [|done|rewrite Hn; apply lookup_delete_eq|done].
  rewrite Hn.
  cbn zeta. cbn [wrapped heap registry spdlog_drop set_registry set_wrapped
                 disk set_disk set_heap fst snd RotatingSink.create].
  rewrite length_insert.
  match goal with |- context [heap w ++ [?x]] => set (lg2 := x) end.
  match goal with |- context [(Return _, ?x) = _] => set (w2 := x) end.
  exists (length (heap w)), lg2, w2. split; [reflexivity|].
  assert (HU : Unwrap (length (wrapped w)) w2
               = Some (Some (length (heap w), lg2))).
  { apply Unwrap_live_intro; cbn.
    - rewrite lookup_app_r by (rewrite length_insert; lia).
      by rewrite length_insert, Nat.sub_diag.
    - by rewrite lookup_app_r, Nat.sub_diag by lia. }
  split; [done|]. split; [lia|].
  split; [cbn; apply lookup_insert_eq|].
  split; [done|]. split; [done|]. split; [done|].
  split.
  - unfold Logger_GetLevel. rewrite HU. reflexivity.
  - unfold dropped, Unwrap. cbn [wrapped set_wrapped w2].
    rewrite lookup_app_l by (rewrite length_insert; lia).
    by rewrite list_lookup_insert_eq.
Qed.

(** [Logger::New] does not validate the sign of the two numbers: they are
    cast to [size_t], so a negative maximum size or file count n of a newly
    built rotating logger becomes the limit 2^64 + n, and a non-negative one
    is kept as it is.  (Newly built: the name, the text of the second
    argument up to its first NUL, is not registered, and the file can be
    opened.) *)
Theorem New_sizes_wrap (kind logName fileName : string) (size files : Z)
    (w : world) :
  rotating_kind (c_str kind) → registry w !! c_str logName = None →
  disk_errors w !! c_str fileName = None →
  INT64_MIN ≤ size ≤ INT64_MAX → INT64_MIN ≤ files ≤ INT64_MAX →
  ∃ w1 lg rs,
    Logger_New default_pattern true
      [JsString kind; JsString logName; JsString fileName;
       JsNumber size; JsNumber files] w
    = (Return (JsObject (length (wrapped w))), w1) ∧
    Unwrap (length (wrapped w)) w1 = Some (Some (length (heap w), lg)) ∧
    sink_target <$> lg_sinks lg = [rotating_file_sink rs] ∧
    RotatingSink.max_size rs = (if size <? 0 then 2 ^ 64 + size else size) ∧
    RotatingSink.max_files rs = (if files <? 0 then 2 ^ 64 + files else files).
Proof.
  intros Hk Hr Hd Hs Hf. unfold Logger_New.
  rewrite construct_rotating_fresh by done. cbn zeta.
  eexists _, _, _. split; [reflexivity|].
  split.
  { apply Unwrap_live_intro; cbn;
      by rewrite lookup_app_r, Nat.sub_diag by lia. }
  split; [reflexivity|].
  assert (Hc : ∀ z, INT64_MIN ≤ z ≤ INT64_MAX →
            to_size_t (To_int64 (JsNumber z))
            = if z <? 0 then 2 ^ 64 + z else z).
  { intros z Hz. rewrite To_int64_in_range by done. unfold to_size_t.
    unfold INT64_MIN, INT64_MAX in Hz.
    destruct (z <? 0) eqn:E.
    - apply Z.ltb_lt in E.
      rewrite <- (Z.mod_small (2 ^ 64 + z) (2 ^ 64)) by lia.
      rewrite <- (Z_mod_plus_full z 1 (2 ^ 64)). f_equal. lia.
    - apply Z.ltb_ge in E. apply Z.mod_small. lia. }
  unfold RotatingSink.create.
  cbn [fst RotatingSink.max_size RotatingSink.max_files].
  split; [exact (Hc size Hs) | exact (Hc files Hf)].
Qed.

(** Every first argument whose text up to its first NUL is other than
    "rotating" and "rotating_async" takes the console branch: the arguments
    after the first are ignored, that text is the name of the logger, and the
    logger is always built by the async factory.  [Logger::New] does not look
    the name up first: when the name is registered the call throws the
    registry's refusal and changes nothing; otherwise the new logger is
    registered and wrapped. *)
Theorem New_console (name : string) (rest : list js_value) (w : world) :
  ¬ rotating_kind (c_str name) →
  (is_Some (registry w !! c_str name) →
   ∃ what, Logger_New default_pattern true (JsString name :: rest) w
           = (Throw what, w)) ∧
  (registry w !! c_str name = None →
   Logger_New default_pattern true (JsString name :: rest) w
   = (Return (JsObject (length (wrapped w))),
      set_wrapped (wrapped w ++ [Some (length (heap w))])
        (set_registry (<[c_str name := length (heap w)]> (registry w))
           (set_heap
              (heap w
               ++ [new_logger default_pattern true (c_str name) stdout_sink])
              w)))).
Proof.
  intros Hk. unfold Logger_New, Logger_construct. first_arg.
  cbn [Utf8String].
  assert (Hb : String.eqb (c_str name) "rotating"
               || String.eqb (c_str name) "rotating_async" = false).
  { apply orb_false_iff.
    split; apply String.eqb_neq; intros E; apply Hk; [by left | by right]. }
  rewrite Hb. unfold stdout_logger_st, register_logger.
  cbn [lg_name new_logger]. split.
  - intros [l ->]. by eexists.
  - by intros ->.
Qed.

End construction_facts.

Section method_facts.
Variable render : string → log_msg → string.
Variable pattern_ok : string → bool.
Variable default_pattern : string.

(** Every method that takes an argument checks its type before it looks at
    the object it is called on: with an ill-typed argument it throws its
    message and changes nothing, on a live handle, on a dropped one and on an
    object that wraps no logger alike.  The two exported functions do the
    same with their own messages. *)
Theorem type_errors_first (m : method) (this : nat) (info : list js_value)
    (w : world) :
  (well_typed m info = false →
   call render pattern_ok m this info w = (Throw (type_error m), w)) ∧
  (IsNumber (arg info 0) = false →
   setLevel info w = (Throw "Provide level", w) ∧
   setFlushOn info w = (Throw "Provide flush level", w)).
Proof.
  split.
  - destruct m; cbn [well_typed call type_error]; try discriminate;
      unfold Logger_Critical, Logger_Error, Logger_Warn, Logger_Info,
        Logger_Debug, Logger_Trace, Logger_emit, Logger_SetLevel,
        Logger_SetPattern; by intros ->.
  - unfold setLevel, setFlushOn. by intros ->.
Qed.

(** [setLevel] on one logger, whether it succeeds or not, leaves the level
    read through a handle to any other logger as it was, and changes neither
    the registry nor a handle nor what has been written. *)
Theorem SetLevel_other_logger (h h' l l' : nat) (lg lg' : logger)
    (info info' : list js_value) (w : world) :
  Unwrap h w = Some (Some (l, lg)) →
  Unwrap h' w = Some (Some (l', lg')) →
  l ≠ l' →
  (Logger_GetLevel h' info' (Logger_SetLevel h info w).2).1
  = Return (JsNumber (effective_level w lg')) ∧
  registry (Logger_SetLevel h info w).2 = registry w ∧
  wrapped (Logger_SetLevel h info w).2 = wrapped w ∧
  disk (Logger_SetLevel h info w).2 = disk w ∧
  stdout (Logger_SetLevel h info w).2 = stdout w.
Proof.
  intros Hu Hu' Hne. destruct (Unwrap_live_inv _ _ _ _ Hu) as [_ Hl].
  unfold Logger_SetLevel.
  destruct (negb (IsNumber (arg info 0))).
  { cbn [snd]. unfold Logger_GetLevel. by rewrite Hu'. }
  rewrite Hu. destruct (_ || _).
  { cbn [snd]. unfold Logger_GetLevel. by rewrite Hu'. }
  cbn [snd]. unfold Logger_GetLevel.
  rewrite (Unwrap_after_set_level h' w l' lg' l lg _ Hu' Hl).
  by rewrite decide_False.
Qed.

(** The destructor does to the world exactly what [drop()] does; running it
    again, or calling [drop()] after it, changes nothing more. *)
Theorem destroy_is_drop (this : nat) (info : list js_value) (w : world) :
  Logger_destroy this w = (Logger_Drop this info w).2 ∧
  Logger_destroy this (Logger_destroy this w) = Logger_destroy this w ∧
  (Logger_Drop this info (Logger_destroy this w)).2 = Logger_destroy this w.
Proof.
  assert (Hnop : ∀ w0, Unwrap this w0 = Some None ∨ Unwrap this w0 = None →
            Logger_destroy this w0 = w0 ∧ (Logger_Drop this info w0).2 = w0).
  { intros w0 H. unfold Logger_destroy, Logger_Drop.
    by destruct H as [-> | ->]. }
  destruct (Unwrap this w) as [[[l lg]|]|] eqn:Hu.
  - destruct (Unwrap_live_inv _ _ _ _ Hu) as [Hh _].
    assert (Hd : Logger_destroy this w
                 = set_wrapped (<[this:=None]> (wrapped w))
                     (spdlog_drop (lg_name lg) w))
      by (unfold Logger_destroy; by rewrite Hu).
    assert (Hn : Unwrap this (Logger_destroy this w) = Some None).
    { apply (Unwrap_after_null this w); [by rewrite Hh|by rewrite Hd]. }
    destruct (Hnop _ (or_introl Hn)) as [H1 H2].
    split; [|done]. rewrite Hd. unfold Logger_Drop. by rewrite Hu.
  - destruct (Hnop w (or_introl Hu)) as [H1 H2]. by rewrite !H1, H2.
  - destruct (Hnop w (or_intror Hu)) as [H1 H2]. by rewrite !H1, H2.
Qed.

(** [drop()] unregisters by name: when the handle's logger has been dropped
    through another handle and a new logger has since been registered under
    the same name, [drop()] on the old handle removes the new logger's
    registry entry, although every handle to the new logger is still live. *)
Theorem stale_drop_unregisters (h h3 l l3 : nat) (lg lg3 : logger)
    (info : list js_value) (w : world) :
  Unwrap h w = Some (Some (l, lg)) →
  Unwrap h3 w = Some (Some (l3, lg3)) →
  l3 ≠ l →
  registry w !! lg_name lg = Some l3 →
  registry (Logger_Drop h info w).2 !! lg_name lg = None ∧
  Unwrap h3 (Logger_Drop h info w).2 = Some (Some (l3, lg3)).
Proof.
  intros Hu Hu3 Hne Hr.
  destruct (Unwrap_live_inv _ _ _ _ Hu) as [Hh Hl].
  destruct (Unwrap_live_inv _ _ _ _ Hu3) as [Hh3 Hl3].
  unfold Logger_Drop. rewrite Hu. cbn [snd]. split.
  - apply lookup_delete_eq.
  - apply Unwrap_live_intro; [|done]. cbn.
    rewrite list_lookup_insert_ne; [done|]. intros ->. congruence.
Qed.

End method_facts.

(** ** Invariants of every run of the module *)

Section run_facts.
Variable render : string → log_msg → string.
Variable pattern_ok : string → bool.
Variable default_pattern : string.

Lemma same_identity_refl lg : same_identity lg lg.
Proof. done. Qed.

Lemma same_identity_trans lg1 lg2 lg3 :
  same_identity lg1 lg2 → same_identity lg2 lg3 → same_identity lg1 lg3.
Proof.
  unfold same_identity. intros (E1 & E2 & E3) (F1 & F2 & F3).
  repeat split; congruence.
Qed.

Lemma sinks_log_length m ss w :
  length (sinks_log render m ss w).1 = length ss.
Proof.
  revert w. induction ss as [|s ss IH]; intros w; [done|]. simpl.
  destruct (sink_log render m s w) as [s' w1].
  specialize (IH w1). destruct (sinks_log render m ss w1) as [ss' w2].
  simpl in IH |- *. by rewrite IH.
Qed.

Lemma drain_length q ss w : length (drain render q ss w).1 = length ss.
Proof.
  revert ss w. induction q as [|m q IH]; intros ss w; [done|]. simpl.
  pose proof (sinks_log_length m ss w) as Hl.
  destruct (sinks_log render m ss w) as [ss1 w1]. simpl in Hl.
  by rewrite IH.
Qed.

(** a method changes the heap at most at the logger of its handle, which
    keeps its identity *)
Lemma call_heap m this info w l lg :
  heap w !! l = Some lg →
  ∃ lg', heap (call render pattern_ok m this info w).2 !! l = Some lg' ∧
         same_identity lg lg'.
Proof.
  intros Hl.
  assert (Hupd : ∀ w1 l0 lg0 lg0', heap w1 = heap w →
            heap w !! l0 = Some lg0 → same_identity lg0 lg0' →
            ∃ lg', heap (set_heap (<[l0 := lg0']> (heap w1)) w1) !! l = Some lg'
                   ∧ same_identity lg lg').
  { intros w1 l0 lg0 lg0' Hh Hl0 Hid. cbn. rewrite Hh.
    destruct (decide (l0 = l)) as [->|Hne].
    - exists lg0'. rewrite list_lookup_insert_eq by by eapply lookup_lt_Some.
      split; [done|]. congruence.
    - exists lg. by rewrite list_lookup_insert_ne. }
  assert (Hsame : ∃ lg', heap w !! l = Some lg' ∧ same_identity lg lg')
    by by exists lg.
  assert (He : ∀ lvl, ∃ lg', heap (Logger_emit render lvl this info w).2 !! l
                             = Some lg' ∧ same_identity lg lg').
  { intros lvl. unfold Logger_emit.
    destruct (negb (IsString (arg info 0))); [done|].
    destruct (Unwrap this w) as [[[l0 lg0]|]|] eqn:Hu; [|done..]. cbn [snd].
    destruct (Unwrap_live_inv _ _ _ _ Hu) as [_ Hl0].
    unfold logger_log. destruct (lvl <? _); [done|].
    destruct (lg_async lg0); [by apply (Hupd w l0 lg0)|].
    pose proof (sinks_log_store render
                  {| logger_name := lg_name lg0; msg_level := lvl;
                     payload := Utf8String (arg info 0) |} (lg_sinks lg0) w)
      as (_ & Hh & _).
    pose proof (sinks_log_length
                  {| logger_name := lg_name lg0; msg_level := lvl;
                     payload := Utf8String (arg info 0) |} (lg_sinks lg0) w)
      as Hlen.
    destruct (sinks_log _ _ _ _) as [ss w1]. simpl in Hh, Hlen.
    by apply (Hupd w1 l0 lg0). }
  destruct m; cbn [call]; try apply He.
  - unfold Logger_GetLevel. by destruct (Unwrap this w) as [[[l0 lg0]|]|].
  - unfold Logger_SetLevel. destruct (negb _); [done|].
    destruct (Unwrap this w) as [[[l0 lg0]|]|] eqn:Hu; [|done..].
    destruct (_ || _); [done|]. cbn [snd].
    destruct (Unwrap_live_inv _ _ _ _ Hu) as [_ Hl0].
    by apply (Hupd w l0 lg0).
  - unfold Logger_Flush.
    destruct (Unwrap this w) as [[[l0 lg0]|]|] eqn:Hu; [|done..]. cbn [snd].
    destruct (Unwrap_live_inv _ _ _ _ Hu) as [_ Hl0].
    unfold logger_flush. destruct (lg_async lg0); [|done].
    pose proof (drain_store render (lg_queue lg0) (lg_sinks lg0) w)
      as (_ & Hh & _).
    pose proof (drain_length (lg_queue lg0) (lg_sinks lg0) w) as Hlen.
    destruct (drain _ _ _ _) as [ss w1]. simpl in Hh, Hlen.
    by apply (Hupd w1 l0 lg0).
  - unfold Logger_Drop.
    by destruct (Unwrap this w) as [[[l0 lg0]|]|].
  - unfold Logger_SetPattern. destruct (negb _); [done|].
    destruct (Unwrap this w) as [[[l0 lg0]|]|] eqn:Hu; [|done..].
    unfold logger_set_pattern. destruct (pattern_ok _); [|done]. cbn [snd].
    destruct (Unwrap_live_inv _ _ _ _ Hu) as [_ Hl0].
    apply (Hupd w l0 lg0); [done..|].
    split; [done|]. split; [done|]. cbn. by rewrite length_fmap.
  - unfold Logger_ClearFormatters.
    destruct (Unwrap this w) as [[[l0 lg0]|]|] eqn:Hu; [|done..]. cbn [snd].
    destruct (Unwrap_live_inv _ _ _ _ Hu) as [_ Hl0].
    apply (Hupd w l0 lg0); [done..|].
    split; [done|]. split; [done|]. cbn. by rewrite length_fmap.
Qed.

(** a method other than [drop] leaves the registry and the handles alone *)
Lemma call_frame m this info w :
  m ≠ m_drop →
  registry (call render pattern_ok m this info w).2 = registry w ∧
  wrapped (call render pattern_ok m this info w).2 = wrapped w.
Proof.
  intros Hm.
  assert (He : ∀ lvl,
            registry (Logger_emit render lvl this info w).2 = registry w ∧
            wrapped (Logger_emit render lvl this info w).2 = wrapped w).
  { intros lvl. unfold Logger_emit.
    destruct (negb (IsString (arg info 0))); [done|].
    destruct (Unwrap this w) as [[[l0 lg0]|]|]; [|done..]. cbn [snd].
    unfold logger_log. destruct (lvl <? _); [done|].
    destruct (lg_async lg0); [done|].
    pose proof (sinks_log_store render
                  {| logger_name := lg_name lg0; msg_level := lvl;
                     payload := Utf8String (arg info 0) |} (lg_sinks lg0) w)
      as (Hr & _ & Hw).
    by destruct (sinks_log _ _ _ _) as [ss w1]. }
  destruct m; cbn [call]; try apply He; try done.
  - unfold Logger_GetLevel. by destruct (Unwrap this w) as [[[l0 lg0]|]|].
  - unfold Logger_SetLevel. destruct (negb _); [done|].
    destruct (Unwrap this w) as [[[l0 lg0]|]|]; [|done..].
    by destruct (_ || _).
  - unfold Logger_Flush.
    destruct (Unwrap this w) as [[[l0 lg0]|]|]; [|done..]. cbn [snd].
    unfold logger_flush. destruct (lg_async lg0); [|done].
    pose proof (drain_store render (lg_queue lg0) (lg_sinks lg0) w)
      as (Hr & _ & Hw).
    by destruct (drain _ _ _ _) as [ss w1].
  - unfold Logger_SetPattern. destruct (negb _); [done|].
    destruct (Unwrap this w) as [[[l0 lg0]|]|]; [|done..].
    unfold logger_set_pattern. by destruct (pattern_ok _).
  - unfold Logger_ClearFormatters.
    by destruct (Unwrap this w) as [[[l0 lg0]|]|].
Qed.

(** [Logger::New] adds at most one logger and at most one handle *)
Lemma New_shape b info w :
  (heap (Logger_New default_pattern b info w).2 = heap w ∨
   ∃ x, heap (Logger_New default_pattern b info w).2 = heap w ++ [x]) ∧
  (wrapped (Logger_New default_pattern b info w).2 = wrapped w ∨
   ∃ l, wrapped (Logger_New default_pattern b info w).2
        = wrapped w ++ [Some l]).
Proof.
  assert (Hreg : ∀ lg w0, heap w0 = heap w → wrapped w0 = wrapped w →
    let r := match register_logger lg w0 with
             | (inr l, w1) => Wrap l w1
             | (inl what, w1) => (Throw what, w1)
             end in
    (heap r.2 = heap w ∨ ∃ x, heap r.2 = heap w ++ [x]) ∧
    (wrapped r.2 = wrapped w ∨ ∃ l, wrapped r.2 = wrapped w ++ [Some l])).
  { intros lg w0 Hh Hw. pose proof (register_logger_outcome lg w0) as Ho.
    destruct (register_logger lg w0) as [[what|l] w1]; cbn.
    - destruct Ho as [-> _]. by split; left.
    - destruct Ho as (_ & _ & ->). cbn. rewrite Hh, Hw. split; right; eauto. }
  assert (Hc : ∀ info,
    (heap (Logger_construct default_pattern info w).2 = heap w ∨
     ∃ x, heap (Logger_construct default_pattern info w).2 = heap w ++ [x]) ∧
    (wrapped (Logger_construct default_pattern info w).2 = wrapped w ∨
     ∃ l, wrapped (Logger_construct default_pattern info w).2
          = wrapped w ++ [Some l])).
  { clear info. intros info. unfold Logger_construct.
    destruct (negb (IsString (arg info 0))); [by split; left|].
    destruct (_ || _).
    - destruct (_ || _); [by split; left|].
      destruct (_ || _); [by split; left|].
      destruct (spdlog_get _ w) as [l|]; [cbn; split; [by left|right; eauto]|].
      destruct (String.eqb _ _); unfold rotating_logger_st;
        (destruct (disk_errors w !! _); [by split; left|]);
        destruct (RotatingSink.create _ _ _ _) as [rs fam];
        by apply Hreg.
    - by apply Hreg. }
  unfold Logger_New. destruct b; [apply Hc|].
  specialize (Hc [arg info 0]).
  by destruct (Logger_construct default_pattern [arg info 0] w) as [[]].
Qed.

Lemma destroy_shape this w :
  heap (Logger_destroy this w) = heap w ∧
  (wrapped (Logger_destroy this w) = wrapped w ∨
   wrapped (Logger_destroy this w) = <[this := None]> (wrapped w)).
Proof.
  unfold Logger_destroy.
  destruct (Unwrap this w) as [[[l lg]|]|]; cbn; eauto.
Qed.

Lemma Drop_shape this info w :
  heap (Logger_Drop this info w).2 = heap w ∧
  (wrapped (Logger_Drop this info w).2 = wrapped w ∨
   wrapped (Logger_Drop this info w).2 = <[this := None]> (wrapped w)).
Proof.
  unfold Logger_Drop.
  destruct (Unwrap this w) as [[[l lg]|]|]; cbn; eauto.
Qed.

(** one entry: loggers keep their place and identity, handles keep their
    number, and a null [logger_] stays null *)
Lemma step_keeps e w :
  (∀ l lg, heap w !! l = Some lg →
     ∃ lg', heap (step render pattern_ok default_pattern e w).2 !! l = Some lg' ∧
            same_identity lg lg') ∧
  (∀ h, wrapped w !! h = Some None →
        wrapped (step render pattern_ok default_pattern e w).2 !! h = Some None) ∧
  (∀ h l, wrapped w !! h = Some (Some l) →
        wrapped (step render pattern_ok default_pattern e w).2 !! h = Some (Some l) ∨
        wrapped (step render pattern_ok default_pattern e w).2 !! h = Some None).
Proof.
  assert (Hgrow : ∀ (A : Type) (xs ys : list A) (i : nat) (x : A),
            (ys = xs ∨ ∃ y, ys = xs ++ [y]) → xs !! i = Some x →
            ys !! i = Some x).
  { intros A xs ys i x [-> | [y ->]] Hx; [done|].
    by rewrite lookup_app_l by by eapply lookup_lt_Some. }
  assert (Hnull : ∀ (ys xs : list (option nat)) (this h : nat),
            (ys = xs ∨ ys = <[this := None]> xs) → xs !! h = Some None →
            ys !! h = Some None).
  { intros ys xs this h [-> | ->] Hx; [done|].
    destruct (decide (this = h)) as [->|Hne].
    - rewrite list_lookup_insert_eq by by eapply lookup_lt_Some. done.
    - by rewrite list_lookup_insert_ne. }
  assert (Hfate : ∀ (ys xs : list (option nat)) (this h l : nat),
            (ys = xs ∨ ys = <[this := None]> xs) → xs !! h = Some (Some l) →
            ys !! h = Some (Some l) ∨ ys !! h = Some None).
  { intros ys xs this h l [-> | ->] Hx; [by left|].
    destruct (decide (this = h)) as [->|Hne].
    - right. rewrite list_lookup_insert_eq by by eapply lookup_lt_Some. done.
    - left. by rewrite list_lookup_insert_ne. }
  destruct e as [info|info|b info|m this info|this]; cbn [step snd].
  - assert (heap (setLevel info w).2 = heap w ∧
            wrapped (setLevel info w).2 = wrapped w) as [Hh Hw].
    { unfold setLevel. destruct (negb _); [done|]. by destruct (_ || _). }
    rewrite Hh, Hw. split; [intros l lg Hl; by exists lg|].
    split; [done|]. by left.
  - assert (heap (setFlushOn info w).2 = heap w ∧
            wrapped (setFlushOn info w).2 = wrapped w) as [Hh Hw].
    { unfold setFlushOn. destruct (negb _); [done|]. by destruct (_ || _). }
    rewrite Hh, Hw. split; [intros l lg Hl; by exists lg|].
    split; [done|]. by left.
  - destruct (New_shape b info w) as [Hh Hw].
    assert (Hw' : wrapped (Logger_New default_pattern b info w).2 = wrapped w ∨
                  ∃ y, wrapped (Logger_New default_pattern b info w).2
                       = wrapped w ++ [y])
      by (destruct Hw as [->|[l ->]]; eauto).
    split; [|split].
    + intros l lg Hl. exists lg. split; [|done]. by eapply Hgrow.
    + intros h Hn. by eapply Hgrow.
    + intros h l Hn. left. by eapply Hgrow.
  - assert (Hw : wrapped (call render pattern_ok m this info w).2 = wrapped w ∨
                 wrapped (call render pattern_ok m this info w).2
                 = <[this := None]> (wrapped w)).
    { assert (m = m_drop ∨ m ≠ m_drop) as [->|Hm]
        by (destruct m; first [by left | by right]).
      - by destruct (Drop_shape this info w) as [_ Hw].
      - left. by destruct (call_frame m this info w Hm) as [_ ->]. }
    split; [intros l lg; apply call_heap|]. split.
    + intros h Hn. by eapply Hnull.
    + intros h l Hn. by eapply Hfate.
  - destruct (destroy_shape this w) as [Hh Hw]. split; [|split].
    + intros l lg Hl. exists lg. by rewrite Hh.
    + intros h Hn. by eapply Hnull.
    + intros h l Hn. by eapply Hfate.
Qed.

Lemma run_entries_cons e es w :
  run_entries render pattern_ok default_pattern (e :: es) w
  = run_entries render pattern_ok default_pattern es (step render pattern_ok default_pattern e w).2.
Proof. reflexivity. Qed.

Lemma dropped_iff h w : dropped h w ↔ wrapped w !! h = Some None.
Proof.
  split; [apply Unwrap_dropped_inv|].
  unfold dropped, Unwrap. by intros ->.
Qed.

Lemma step_wf e w :
  wf_world w → wf_world (step render pattern_ok default_pattern e w).2.
Proof.
  intros Hwf. destruct e; cbn [step snd].
  - by apply wf_setLevel.
  - by apply wf_setFlushOn.
  - by apply wf_Logger_New.
  - by apply wf_call.
  - by apply wf_Logger_destroy.
Qed.

Lemma run_entries_wf es w :
  wf_world w → wf_world (run_entries render pattern_ok default_pattern es w).
Proof.
  revert w. induction es as [|e es IH]; intros w Hwf; [done|].
  rewrite run_entries_cons. by apply IH, step_wf.
Qed.

(** Whatever the host does with the module, in whatever order and with
    whatever arguments, starting from a fresh process: a name in the registry
    leads to a logger that carries that name, and the logger of every live
    handle, and of every registry entry, exists. *)
Theorem reachable_wf (es : list entry) :
  wf_world (run_entries render pattern_ok default_pattern es initial_world).
Proof. apply run_entries_wf, wf_initial_world. Qed.

Lemma run_entries_dropped (es : list entry) (h : nat) (w : world) :
  wrapped w !! h = Some None →
  wrapped (run_entries render pattern_ok default_pattern es w) !! h = Some None.
Proof.
  revert w. induction es as [|e es IH]; intros w Hd; [done|].
  rewrite run_entries_cons. apply IH.
  destruct (step_keeps e w) as (_ & Hn & _). by apply Hn.
Qed.

(** A dropped handle stays dropped: no sequence of calls, constructions and
    collections gives a handle whose [logger_] is [NULL] a logger again. *)
Theorem dropped_forever (es : list entry) (h : nat) (w : world) :
  dropped h w → dropped h (run_entries render pattern_ok default_pattern es w).
Proof.
  intros Hd. apply dropped_iff, run_entries_dropped. by apply dropped_iff.
Qed.

(** A live handle is never pointed at another logger: after any sequence of
    entries it is either dropped or refers to the logger at the same
    location, which still has the name, the sync/async kind and the number
    of sinks it was built with. *)
Theorem handle_fate (es : list entry) (h l : nat) (lg : logger) (w : world) :
  Unwrap h w = Some (Some (l, lg)) →
  dropped h (run_entries render pattern_ok default_pattern es w) ∨
  ∃ lg', Unwrap h (run_entries render pattern_ok default_pattern es w)
         = Some (Some (l, lg')) ∧ same_identity lg lg'.
Proof.
  revert w lg. induction es as [|e es IH]; intros w lg Hu.
  { right. by exists lg. }
  rewrite run_entries_cons.
  destruct (Unwrap_live_inv _ _ _ _ Hu) as [Hh Hl].
  destruct (step_keeps e w) as (Hheap & _ & Hfate).
  destruct (Hheap _ _ Hl) as (lg1 & Hl1 & Hid1).
  destruct (Hfate _ _ Hh) as [Hh1 | Hh1].
  - destruct (IH _ lg1 (Unwrap_live_intro _ _ _ _ Hh1 Hl1))
      as [Hd | (lg' & Hu' & Hid')]; [by left|].
    right. exists lg'. split; [done|]. by eapply same_identity_trans.
  - left. by apply dropped_iff, run_entries_dropped.
Qed.

(** ** Registry entries and the handles to their loggers *)

(** [Logger::New] registers at most one name, at the next free location *)
Lemma New_registry b info w :
  registry (Logger_New default_pattern b info w).2 = registry w ∨
  ∃ n, registry (Logger_New default_pattern b info w).2
       = <[n := length (heap w)]> (registry w).
Proof.
  assert (Hreg : ∀ lg w0, heap w0 = heap w → registry w0 = registry w →
    let r := match register_logger lg w0 with
             | (inr l, w1) => Wrap l w1
             | (inl what, w1) => (Throw what, w1)
             end in
    registry r.2 = registry w ∨
    ∃ n, registry r.2 = <[n := length (heap w)]> (registry w)).
  { intros lg w0 Hh Hr. pose proof (register_logger_outcome lg w0) as Ho.
    destruct (register_logger lg w0) as [[what|l] w1]; cbn.
    - destruct Ho as [-> _]. by left.
    - destruct Ho as (_ & -> & ->). cbn. rewrite Hh, Hr. right. eauto. }
  assert (Hc : ∀ info,
    registry (Logger_construct default_pattern info w).2 = registry w ∨
    ∃ n, registry (Logger_construct default_pattern info w).2
         = <[n := length (heap w)]> (registry w)).
  { clear info. intros info. unfold Logger_construct.
    destruct (negb (IsString (arg info 0))); [by left|].
    destruct (_ || _).
    - destruct (_ || _); [by left|].
      destruct (_ || _); [by left|].
      destruct (spdlog_get _ w) as [l|]; [by left|].
      destruct (String.eqb _ _); unfold rotating_logger_st;
        (destruct (disk_errors w !! _); [by left|]);
        destruct (RotatingSink.create _ _ _ _) as [rs fam];
        by apply Hreg.
    - by apply Hreg. }
  unfold Logger_New. destruct b; [apply Hc|].
  specialize (Hc [arg info 0]).
  by destruct (Logger_construct default_pattern [arg info 0] w) as [[]].
Qed.

(** no entry ever registers a location that is already in use *)
Lemma step_no_reregister e w n l :
  (l < length (heap w))%nat → registry w !! n ≠ Some l →
  (l < length (heap (step render pattern_ok default_pattern e w).2))%nat ∧
  registry (step render pattern_ok default_pattern e w).2 !! n ≠ Some l.
Proof.
  intros Hl Hn. split.
  { apply lookup_lt_is_Some in Hl as [lg Hlg].
    destruct (step_keeps e w) as (Hheap & _).
    destruct (Hheap _ _ Hlg) as (lg' & Hlg' & _). by eapply lookup_lt_Some. }
  assert (Hdel : ∀ n0, delete n0 (registry w) !! n ≠ Some l).
  { intros n0 H. by apply lookup_delete_Some in H as [_ H]. }
  destruct e as [info|info|b info|m this info|this]; cbn [step snd].
  - unfold setLevel. destruct (negb _); [done|]. by destruct (_ || _).
  - unfold setFlushOn. destruct (negb _); [done|]. by destruct (_ || _).
  - destruct (New_registry b info w) as [-> | [n0 ->]]; [done|].
    destruct (decide (n0 = n)) as [->|Hne].
    + rewrite lookup_insert_eq. intros [= <-]. lia.
    + by rewrite lookup_insert_ne.
  - assert (m = m_drop ∨ m ≠ m_drop) as [->|Hm]
      by (destruct m; first [by left | by right]).
    + cbn [call]. unfold Logger_Drop.
      destruct (Unwrap this w) as [[[l0 lg0]|]|]; [|done..]. apply Hdel.
    + by destruct (call_frame m this info w Hm) as [-> _].
  - unfold Logger_destroy.
    destruct (Unwrap this w) as [[[l0 lg0]|]|]; [|done..]. apply Hdel.
Qed.

Lemma run_entries_no_reregister es w n l :
  (l < length (heap w))%nat → registry w !! n ≠ Some l →
  registry (run_entries render pattern_ok default_pattern es w) !! n ≠ Some l.
Proof.
  revert w. induction es as [|e es IH]; intros w Hl Hn; [done|].
  rewrite run_entries_cons.
  destruct (step_no_reregister e w n l Hl Hn) as [Hl' Hn']. by apply IH.
Qed.

(** the entry that nulls a live handle takes the name of the handle's logger
    out of the registry *)
Lemma step_null_unregisters e w h l lg :
  wrapped w !! h = Some (Some l) → heap w !! l = Some lg →
  wrapped (step render pattern_ok default_pattern e w).2 !! h = Some None →
  registry (step render pattern_ok default_pattern e w).2 !! lg_name lg = None.
Proof.
  intros Hh Hl.
  assert (Hlt : (h < length (wrapped w))%nat) by by eapply lookup_lt_Some.
  assert (Hsame : ∀ w', wrapped w' = wrapped w →
            wrapped w' !! h = Some None → registry w' !! lg_name lg = None).
  { intros w' E H. rewrite E in H. congruence. }
  assert (Hdrop : ∀ this l0 lg0 (r : gmap string nat),
            Unwrap this w = Some (Some (l0, lg0)) →
            <[this := None]> (wrapped w) !! h = Some None →
            delete (lg_name lg0) r !! lg_name lg = None).
  { intros this l0 lg0 r Hu.
    destruct (decide (this = h)) as [->|Hne].
    - intros _. destruct (Unwrap_live_inv _ _ _ _ Hu) as [Hh0 Hl0].
      assert (l0 = l) as -> by congruence.
      assert (lg0 = lg) as -> by congruence.
      apply lookup_delete_eq.
    - rewrite list_lookup_insert_ne by done. congruence. }
  destruct e as [info|info|b info|m this info|this]; cbn [step snd].
  - apply Hsame. unfold setLevel. destruct (negb _); [done|].
    by destruct (_ || _).
  - apply Hsame. unfold setFlushOn. destruct (negb _); [done|].
    by destruct (_ || _).
  - destruct (New_shape b info w) as [_ [-> | [l0 ->]]];
      [congruence|]. rewrite lookup_app_l by done. congruence.
  - assert (m = m_drop ∨ m ≠ m_drop) as [->|Hm]
      by (destruct m; first [by left | by right]).
    + cbn [call]. unfold Logger_Drop.
      destruct (Unwrap this w) as [[[l0 lg0]|]|] eqn:Hu; cbn [snd];
        [|by apply Hsame..].
      by apply (Hdrop this l0 lg0).
    + apply Hsame. by destruct (call_frame m this info w Hm) as [_ ->].
  - unfold Logger_destroy.
    destruct (Unwrap this w) as [[[l0 lg0]|]|] eqn:Hu;
      [|by apply Hsame..].
    by apply (Hdrop this l0 lg0).
Qed.

(** as long as the logger of a live handle is the one registered under its
    name, the handle is live *)
Lemma registered_handle_stays es w h l lg :
  wrapped w !! h = Some (Some l) → heap w !! l = Some lg →
  registry (run_entries render pattern_ok default_pattern es w) !! lg_name lg
  = Some l →
  ∃ lg', Unwrap h (run_entries render pattern_ok default_pattern es w)
         = Some (Some (l, lg')).
Proof.
  revert w lg. induction es as [|e es IH]; intros w lg Hh Hl Hr.
  { exists lg. by apply Unwrap_live_intro. }
  rewrite run_entries_cons in Hr |- *.
  destruct (step_keeps e w) as (Hheap & _ & Hfate).
  destruct (Hheap _ _ Hl) as (lg1 & Hl1 & Hid1 & _).
  destruct (Hfate _ _ Hh) as [Hh1 | Hh1].
  - apply (IH _ lg1); [done..|]. by rewrite Hid1.
  - exfalso.
    pose proof (step_null_unregisters e w h l lg Hh Hl Hh1) as Hnone.
    refine (run_entries_no_reregister es _ (lg_name lg) l _ _ Hr).
    + by eapply lookup_lt_Some.
    + by rewrite Hnone.
Qed.

(** what a successful construction leaves behind, whatever the kind *)
Lemma construct_registered (info : list js_value) (h : nat) (w w1 : world) :
  wf_world w →
  Logger_construct default_pattern info w = (Return (JsObject h), w1) →
  h = length (wrapped w) ∧
  ∃ l lg, registry w1 !! created_name info = Some l ∧
          heap w1 !! l = Some lg ∧ wrapped w1 !! h = Some (Some l) ∧
          lg_name lg = created_name info.
Proof.
  intros [Hreg Hobj].
  assert (Hnew : ∀ lg w0 r, heap w0 = heap w → wrapped w0 = wrapped w →
    registry w0 = registry w →
    match register_logger lg w0 with
    | (inr l, w1) => Wrap l w1
    | (inl what, w1) => (Throw what, w1)
    end = (Return (JsObject h), r) →
    h = length (wrapped w) ∧
    ∃ l lg', registry r !! lg_name lg = Some l ∧ heap r !! l = Some lg' ∧
             wrapped r !! h = Some (Some l) ∧ lg_name lg' = lg_name lg).
  { intros lg w0 r Hh Hw Hr. pose proof (register_logger_outcome lg w0) as Ho.
    destruct (register_logger lg w0) as [[what|l] w']; [done|].
    destruct Ho as (_ & -> & ->). unfold Wrap. cbn. rewrite Hh, Hw.
    intros [= <- <-]. split; [done|]. exists (length (heap w)), lg. cbn.
    split; [apply lookup_insert_eq|].
    split; [by rewrite lookup_app_r, Nat.sub_diag by lia|].
    split; [|done]. by rewrite lookup_app_r, Nat.sub_diag by lia. }
  unfold Logger_construct, created_name.
  destruct (negb (IsString (arg info 0))); [done|].
  destruct (_ || _).
  - destruct (_ || _); [done|]. destruct (_ || _); [done|].
    unfold spdlog_get.
    destruct (registry w !! Utf8String (arg info 1)) as [l|] eqn:Hr.
    + unfold Wrap. intros [= <- <-]. split; [done|].
      destruct (Hreg _ _ Hr) as (lg & Hl & Hn).
      exists l, lg. cbn. split; [done|]. split; [done|].
      split; [|done]. by rewrite lookup_app_r, Nat.sub_diag by lia.
    + destruct (String.eqb _ _); unfold rotating_logger_st;
        (destruct (disk_errors w !! _); [done|]);
        destruct (RotatingSink.create _ _ _ _) as [rs fam];
        intros H; by apply Hnew in H.
  - unfold stdout_logger_st. intros H. by apply Hnew in H.
Qed.

(** C3 (amended): a successful logger-creation call, of any kind, leaves a
    logger registered under its name (the second argument for the kinds
    "rotating" and "rotating_async", the first otherwise, cut at the first
    NUL) and returns a handle to it.  A later creation call of kind
    "rotating" or "rotating_async" with the same name, made after any further
    entries into the module but while that logger is still the one
    registered under the name (no [drop()] and no destructor has taken the
    entry out), returns a new handle to the same logger: the registry entry
    is reused, nothing but the handle is created (the sink specification is
    ignored), and a level set through either handle is read through the
    other. *)
Theorem C3_same_name_same_logger (info1 : list js_value)
    (kind2 name2 file2 : string) (size2 files2 : Z) (h1 : nat)
    (es : list entry) (w w1 : world) :
  wf_world w →
  Logger_New default_pattern true info1 w = (Return (JsObject h1), w1) →
  rotating_kind (c_str kind2) →
  c_str name2 = created_name info1 →
  registry (run_entries render pattern_ok default_pattern es w1) !! c_str name2
  = registry w1 !! c_str name2 →
  ∃ h2 l lg,
    let w' := run_entries render pattern_ok default_pattern es w1 in
    let w2 := set_wrapped (wrapped w' ++ [Some l]) w' in
    Logger_New default_pattern true
      [JsString kind2; JsString name2; JsString file2;
       JsNumber size2; JsNumber files2] w' = (Return (JsObject h2), w2) ∧
    h2 ≠ h1 ∧
    registry w2 !! c_str name2 = Some l ∧
    Unwrap h1 w2 = Some (Some (l, lg)) ∧
    Unwrap h2 w2 = Some (Some (l, lg)) ∧
    ∀ L rest info, level.trace ≤ L ≤ level.off →
      Logger_GetLevel h2 info (Logger_SetLevel h1 (JsNumber L :: rest) w2).2
      = (Return (JsNumber L), (Logger_SetLevel h1 (JsNumber L :: rest) w2).2) ∧
      Logger_GetLevel h1 info (Logger_SetLevel h2 (JsNumber L :: rest) w2).2
      = (Return (JsNumber L), (Logger_SetLevel h2 (JsNumber L :: rest) w2).2).
Proof.
  intros Hwf Hnew Hk2 Hname Hstill. unfold Logger_New in Hnew |- *.
  destruct (construct_registered _ _ _ _ Hwf Hnew)
    as (Hh1 & l & lg0 & Hr & Hl & Hw & Hn).
  rewrite Hname, Hr in Hstill. rewrite <- Hn in Hstill.
  destruct (registered_handle_stays es w1 h1 l lg0 Hw Hl Hstill) as [lg Hu].
  rewrite Hn, <- Hname in Hstill.
  set (w' := run_entries render pattern_ok default_pattern es w1) in *.
  destruct (Unwrap_live_inv _ _ _ _ Hu) as [Hw' Hl'].
  exists (length (wrapped w')), l, lg. cbn zeta.
  assert (Hlt : (h1 < length (wrapped w'))%nat) by by eapply lookup_lt_Some.
  assert (Hu1 : Unwrap h1 (set_wrapped (wrapped w' ++ [Some l]) w')
                = Some (Some (l, lg))).
  { apply Unwrap_live_intro; [|done]. simpl. by rewrite lookup_app_l. }
  assert (Hu2 : Unwrap (length (wrapped w'))
                  (set_wrapped (wrapped w' ++ [Some l]) w')
                = Some (Some (l, lg))).
  { apply Unwrap_live_intro; [|done]. simpl.
    by rewrite lookup_app_r, Nat.sub_diag by lia. }
  split; [by rewrite (construct_rotating _ _ _ _ _ _ _ Hk2), Hstill|].
  split; [lia|]. split; [done|]. split; [done|]. split; [done|].
  intros L rest info HL. split.
  - by apply (SetLevel_then_GetLevel_shared h1 _ l lg).
  - by apply (SetLevel_then_GetLevel_shared _ h1 l lg).
Qed.

(** one entry that neither creates nor releases leaves the registry and the
    handles as they are *)
Lemma step_frame e w :
  creates_or_releases e = false →
  registry (step render pattern_ok default_pattern e w).2 = registry w ∧
  wrapped (step render pattern_ok default_pattern e w).2 = wrapped w.
Proof.
  destruct e as [info|info|b info|m this info|this]; cbn [step snd];
    try discriminate.
  - intros _. unfold setLevel. destruct (negb _); [done|].
    by destruct (_ || _).
  - intros _. unfold setFlushOn. destruct (negb _); [done|].
    by destruct (_ || _).
  - intros Hm. apply call_frame. by intros ->.
Qed.

(** Only [Logger::New], [drop()] and the destructor touch the registry and
    the handles: any sequence of the other entries (logging, flushing,
    levels, patterns, the two exported functions), with any arguments,
    registers and unregisters nothing and nulls no handle. *)
Theorem only_New_and_drop_change_registry (es : list entry) (w : world) :
  Forall (λ e, creates_or_releases e = false) es →
  registry (run_entries render pattern_ok default_pattern es w) = registry w ∧
  wrapped (run_entries render pattern_ok default_pattern es w) = wrapped w.
Proof.
  revert w. induction es as [|e es IH]; intros w Hes; [done|].
  apply Forall_cons in Hes as [He Hes]. rewrite run_entries_cons.
  destruct (IH (step render pattern_ok default_pattern e w).2 Hes) as [-> ->].
  by apply step_frame.
Qed.

End run_facts.

(** ** A rotating logger runs its sink *)

Section rotating_logger_facts.
Variable render : string → log_msg → string.
Variable default_pattern : string.

Lemma run_last_cons text texts s fam :
  last (RotatingSink.run (text :: texts) s fam)
  = last (RotatingSink.run texts (RotatingSink.write text s fam).1
            (RotatingSink.write text s fam).2).
Proof.
  simpl. destruct (RotatingSink.write text s fam) as [s' fam']. simpl.
  by destruct texts; simpl; [|destruct (RotatingSink.write _ _ _)].
Qed.

(** one emit call on the handle of a synchronous logger with one rotating
    sink: a record that passes the two levels is formatted with the default
    pattern and written by the sink to the files of its base path *)
Lemma emit_writes (lvl : Z) (msg name : string) (h l : nat)
    (rs : RotatingSink.t) (w : world) :
  wrapped w !! h = Some (Some l) →
  heap w !! l
  = Some (new_logger default_pattern false name (rotating_file_sink rs)) →
  (Logger_emit render lvl h [JsString msg] w).2
  = if (lvl <? global_log_level w) || (lvl <? level.trace) then w
    else
      let text := render default_pattern
                    {| logger_name := name; msg_level := lvl;
                       payload := c_str msg |} in
      let path := RotatingSink.base_filename rs in
      let r := RotatingSink.write text rs (default ∅ (disk w !! path)) in
      set_heap
        (<[l := new_logger default_pattern false name
                  (rotating_file_sink r.1)]> (heap w))
        (set_disk (<[path := r.2]> (disk w)) w).
Proof.
  intros Hh Hl. unfold Logger_emit. first_arg.
  rewrite (Unwrap_live_intro _ _ _ _ Hh Hl). cbn [snd Utf8String].
  unfold logger_log, effective_level.
  cbn [new_logger lg_level lg_async lg_sinks lg_name default].
  destruct (lvl <? global_log_level w); [done|]. cbn [orb sinks_log].
  unfold sink_log. cbn [msg_level sink_level sink_target sink_formatter format].
  destruct (lvl <? level.trace).
  - cbn. destruct w as [r hp wr gl gf so d de]. unfold set_heap. cbn in *.
    f_equal. by apply list_insert_id.
  - cbn zeta. by destruct (RotatingSink.write _ _ _) as [rs' fam'].
Qed.

Lemma emit_all_runs (name : string) (h l : nat) (calls : list (Z * string))
    (rs : RotatingSink.t) (w : world) :
  wrapped w !! h = Some (Some l) →
  heap w !! l
  = Some (new_logger default_pattern false name (rotating_file_sink rs)) →
  rotating_state l (emit_all render h calls w)
  = last (RotatingSink.run
            (written render default_pattern name (global_log_level w) calls)
            rs (default ∅ (disk w !! RotatingSink.base_filename rs))).
Proof.
  revert rs w. induction calls as [|[lvl msg] calls IH]; intros rs w Hh Hl.
  { unfold rotating_state. cbn. by rewrite Hl. }
  unfold emit_all. cbn [foldl fst snd]. fold (emit_all render h calls).
  rewrite (emit_writes lvl msg name h l rs w Hh Hl).
  unfold written. cbn [omap list_omap fst snd].
  fold (written render default_pattern name (global_log_level w) calls).
  destruct ((lvl <? global_log_level w) || (lvl <? level.trace)).
  { by apply IH. }
  cbn zeta. rewrite run_last_cons.
  destruct (write_config
              (render default_pattern
                 {| logger_name := name; msg_level := lvl;
                    payload := c_str msg |}) rs
              (default ∅ (disk w !! RotatingSink.base_filename rs)))
    as (Hbase & _ & _).
  set (r := RotatingSink.write _ rs _) in *.
  match goal with |- context [foldl _ ?w1 calls] =>
    assert (Hh1 : wrapped w1 !! h = Some (Some l)) by done;
    assert (Hl1 : heap w1 !! l
                  = Some (new_logger default_pattern false name
                            (rotating_file_sink r.1)))
      by (apply list_lookup_insert_eq; by eapply lookup_lt_Some);
    pose proof (IH r.1 w1 Hh1 Hl1) as HI
  end.
  unfold emit_all in HI. rewrite HI.
  cbn [set_heap set_disk disk global_log_level].
  by rewrite Hbase, lookup_insert_eq.
Qed.

(** A synchronous rotating logger built by [Logger::New] and driven through
    its handle leaves its sink and the files of its base path in the state
    the rotating sink, created as [Logger::New] creates it, reaches by
    writing the formatted records that pass the levels, in their order. *)
Lemma rotating_logger_runs_sink (kind logName fileName : string)
    (size files : Z) (calls : list (Z * string)) (w : world) :
  rotating_kind (c_str kind) → registry w !! c_str logName = None →
  disk_errors w !! c_str fileName = None →
  String.eqb (c_str logName) "rotating_async" = false →
  rotating_state (length (heap w))
    (emit_all render (length (wrapped w)) calls
       (Logger_New default_pattern true
          [JsString kind; JsString logName; JsString fileName;
           JsNumber size; JsNumber files] w).2)
  = last (RotatingSink.run
            (written render default_pattern (c_str logName)
               (global_log_level w) calls)
            (RotatingSink.create (c_str fileName)
               (to_size_t (To_int64 (JsNumber size)))
               (to_size_t (To_int64 (JsNumber files)))
               (default ∅ (disk w !! c_str fileName))).1
            (RotatingSink.create (c_str fileName)
               (to_size_t (To_int64 (JsNumber size)))
               (to_size_t (To_int64 (JsNumber files)))
               (default ∅ (disk w !! c_str fileName))).2).
Proof.
  intros Hk Hr Hd Hsync. unfold Logger_New.
  rewrite construct_rotating_fresh by done. cbn zeta. rewrite Hsync.
  cbn [snd].
  set (created := RotatingSink.create (c_str fileName)
                    (to_size_t (To_int64 (JsNumber size)))
                    (to_size_t (To_int64 (JsNumber files)))
                    (default ∅ (disk w !! c_str fileName))).
  match goal with |- context [emit_all _ _ calls ?w1] =>
    assert (Hh1 : wrapped w1 !! length (wrapped w) = Some (Some (length (heap w))))
      by (cbn; by rewrite lookup_app_r, Nat.sub_diag by lia);
    assert (Hl1 : heap w1 !! length (heap w)
                  = Some (new_logger default_pattern false (c_str logName)
                            (rotating_file_sink created.1)))
      by (cbn; by rewrite lookup_app_r, Nat.sub_diag by lia);
    rewrite (emit_all_runs (c_str logName) _ _ calls created.1 w1 Hh1 Hl1)
  end.
  cbn [set_wrapped set_registry set_heap set_disk disk global_log_level].
  replace (RotatingSink.base_filename created.1) with (c_str fileName)
    by reflexivity.
  by rewrite lookup_insert_eq.
Qed.

End rotating_logger_facts.

(** ** Concrete runs of the further properties *)

Lemma stale_world_old : Unwrap 1 stale_world = Some (Some (0%nat, example_logger)).
Proof. vm_compute. reflexivity. Qed.

Lemma stale_world_new : Unwrap 2 stale_world = Some (Some (1%nat, example_logger)).
Proof. vm_compute. reflexivity. Qed.

(** [new Logger(5)], [new Logger("rotating", "app")] and
    [new Logger("rotating", "app", "/tmp/app.log", "big", 3)] *)
Lemma New_argument_errors_witness :
  Logger_New "%v" true [JsNumber 5] example_world
  = (Throw "Provide a logger name", example_world) ∧
  Logger_New "%v" true [JsString "rotating"; JsString "app"] example_world
  = (Throw "Provide the log name and file name", example_world) ∧
  Logger_New "%v" true
    [JsString "rotating"; JsString "app"; JsString "/tmp/app.log";
     JsString "big"; JsNumber 3] example_world
  = (Throw "Provide the max size and max files", example_world).
Proof.
  assert (Hk : rotating_kind "rotating") by (left; reflexivity).
  split; [|split].
  - exact (proj1 (New_argument_errors "%v" [JsNumber 5] example_world) eq_refl).
  - exact (proj1 (proj2 (New_argument_errors "%v"
                           [JsString "rotating"; JsString "app"] example_world)
                    "rotating" eq_refl Hk) eq_refl).
  - exact (proj2 (proj2 (New_argument_errors "%v"
                           [JsString "rotating"; JsString "app";
                            JsString "/tmp/app.log"; JsString "big"; JsNumber 3]
                           example_world)
                    "rotating" eq_refl Hk) eq_refl eq_refl).
Defined.

(** [Logger("rotating", "app", "/tmp/app.log", 1024, 3)] without [new] *)
Lemma New_plain_call_witness :
  rotating_kind "rotating" ∧
  Logger_New "%v" false example_info initial_world = (Abort, initial_world).
Proof.
  assert (Hk : rotating_kind "rotating") by (left; reflexivity).
  split; [exact Hk|].
  exact (proj2 (proj2 (New_plain_call "%v" example_info initial_world))
           "rotating" eq_refl Hk).
Defined.

(** the running example again, in the world it has produced *)
Lemma New_outcome_witness :
  wf_world initial_world ∧
  live 0 example_world ∧
  (Logger_New "%v" true [JsNumber 5] initial_world).2 = initial_world.
Proof.
  split; [exact wf_initial_world|]. split.
  - pose proof (New_outcome "%v" true example_info initial_world
                  wf_initial_world) as H.
    change (Logger_New "%v" true example_info initial_world)
      with (Return (JsObject 0), example_world) in H.
    exact (proj1 (proj2 (proj2 H))).
  - pose proof (New_outcome "%v" true [JsNumber 5] initial_world
                  wf_initial_world) as H.
    change (Logger_New "%v" true [JsNumber 5] initial_world)
      with (Throw "Provide a logger name", initial_world) in H.
    exact H.
Defined.

(** [drop()] on the running example, then the same creation call *)
Lemma Drop_then_New_fresh_witness :
  Unwrap 0 example_world = Some (Some (0%nat, example_logger)) ∧
  rotating_kind "rotating" ∧
  disk_errors example_world !! "/tmp/app.log" = None ∧
  ∃ l2 lg2 w2,
    Logger_New "%v" true example_info (Logger_Drop 0 [] example_world).2
    = (Return (JsObject 1), w2) ∧
    Unwrap 1 w2 = Some (Some (l2, lg2)) ∧ l2 ≠ 0%nat.
Proof.
  assert (Hk : rotating_kind "rotating") by (left; reflexivity).
  assert (Hd : disk_errors example_world !! "/tmp/app.log" = None)
    by reflexivity.
  split; [exact example_world_live|]. split; [exact Hk|]. split; [exact Hd|].
  destruct (Drop_then_New_fresh "%v" 0 0 example_logger "rotating" "app"
              "/tmp/app.log" 1024 3 [] example_world example_world_live Hk
              eq_refl Hd)
    as (l2 & lg2 & w2 & Hnew & Hu & Hne & _).
  exists l2, lg2, w2. split; [exact Hnew|]. split; [exact Hu | exact Hne].
Defined.

(** [new Logger("rotating", "app", "/tmp/app.log", -1, 3)] *)
Lemma New_sizes_wrap_witness :
  rotating_kind "rotating" ∧
  registry initial_world !! "app" = None ∧
  disk_errors initial_world !! "/tmp/app.log" = None ∧
  INT64_MIN ≤ -1 ≤ INT64_MAX ∧ INT64_MIN ≤ 3 ≤ INT64_MAX ∧
  ∃ w1 lg rs,
    Logger_New "%v" true
      [JsString "rotating"; JsString "app"; JsString "/tmp/app.log";
       JsNumber (-1); JsNumber 3] initial_world = (Return (JsObject 0), w1) ∧
    sink_target <$> lg_sinks lg = [rotating_file_sink rs] ∧
    RotatingSink.max_size rs = 18446744073709551615 ∧
    RotatingSink.max_files rs = 3.
Proof.
  assert (Hk : rotating_kind "rotating") by (left; reflexivity).
  assert (Hr : registry initial_world !! "app" = None) by reflexivity.
  assert (Hd : disk_errors initial_world !! "/tmp/app.log" = None)
    by reflexivity.
  assert (Hs : INT64_MIN ≤ -1 ≤ INT64_MAX) by (split; discriminate).
  assert (Hf : INT64_MIN ≤ 3 ≤ INT64_MAX) by (split; discriminate).
  split; [exact Hk|]. split; [exact Hr|]. split; [exact Hd|].
  split; [exact Hs|]. split; [exact Hf|].
  destruct (New_sizes_wrap "%v" "rotating" "app" "/tmp/app.log" (-1) 3
              initial_world Hk Hr Hd Hs Hf)
    as (w1 & lg & rs & Hnew & _ & Hsk & Hms & Hmf).
  exists w1, lg, rs. split; [exact Hnew|]. split; [exact Hsk|].
  split; [exact Hms | exact Hmf].
Defined.

(** [new Logger("console", "app")] in a fresh process, and once more *)
Lemma New_console_witness :
  ¬ rotating_kind "console" ∧
  registry initial_world !! "console" = None ∧
  (Logger_New "%v" true [JsString "console"; JsString "app"] initial_world).1
  = Return (JsObject 0) ∧
  ∃ what,
    Logger_New "%v" true [JsString "console"; JsString "app"]
      (Logger_New "%v" true [JsString "console"; JsString "app"]
         initial_world).2
    = (Throw what,
       (Logger_New "%v" true [JsString "console"; JsString "app"]
          initial_world).2).
Proof.
  assert (Hk : ¬ rotating_kind "console")
    by (intros [H | H]; discriminate H).
  assert (Hr : registry initial_world !! "console" = None) by reflexivity.
  split; [exact Hk|]. split; [exact Hr|]. split.
  - rewrite (proj2 (New_console "%v" "console" [JsString "app"] initial_world
                      Hk) Hr). reflexivity.
  - apply (proj1 (New_console "%v" "console" [JsString "app"] _ Hk)).
    eexists. vm_compute. reflexivity.
Defined.

(** [setLevel("high")] on a dropped handle, and the exported functions *)
Lemma type_errors_first_witness :
  well_typed m_setLevel [JsString "high"] = false ∧
  call payload_only any_pattern m_setLevel 0 [JsString "high"]
    (Logger_Drop 0 [] example_world).2
  = (Throw "Provide level", (Logger_Drop 0 [] example_world).2) ∧
  setFlushOn [] initial_world = (Throw "Provide flush level", initial_world).
Proof.
  split; [reflexivity|]. split.
  - exact (proj1 (type_errors_first payload_only any_pattern m_setLevel 0
                    [JsString "high"] (Logger_Drop 0 [] example_world).2)
             eq_refl).
  - exact (proj2 (proj2 (type_errors_first payload_only any_pattern m_setLevel 0 []
                           initial_world) eq_refl)).
Defined.

(** the two loggers called "app" of the second example *)
Lemma SetLevel_other_logger_witness :
  Unwrap 1 stale_world = Some (Some (0%nat, example_logger)) ∧
  Unwrap 2 stale_world = Some (Some (1%nat, example_logger)) ∧
  (0 ≠ 1)%nat ∧
  (Logger_GetLevel 2 []
     (Logger_SetLevel 1 [JsNumber level.err] stale_world).2).1
  = Return (JsNumber level.info).
Proof.
  assert (Hne : (0 ≠ 1)%nat) by discriminate.
  split; [exact stale_world_old|]. split; [exact stale_world_new|].
  split; [exact Hne|].
  exact (proj1 (SetLevel_other_logger 1 2 0 1 example_logger example_logger
                  [JsNumber level.err] [] stale_world stale_world_old
                  stale_world_new Hne)).
Defined.

(** the second example: handle 1 is stale, handle 2 holds the registered
    logger *)
Lemma stale_drop_unregisters_witness :
  Unwrap 1 stale_world = Some (Some (0%nat, example_logger)) ∧
  Unwrap 2 stale_world = Some (Some (1%nat, example_logger)) ∧
  (1 ≠ 0)%nat ∧
  registry stale_world !! "app" = Some 1%nat ∧
  registry (Logger_Drop 1 [] stale_world).2 !! "app" = None ∧
  Unwrap 2 (Logger_Drop 1 [] stale_world).2
  = Some (Some (1%nat, example_logger)).
Proof.
  assert (Hne : (1 ≠ 0)%nat) by discriminate.
  assert (Hr : registry stale_world !! lg_name example_logger = Some 1%nat)
    by (vm_compute; reflexivity).
  split; [exact stale_world_old|]. split; [exact stale_world_new|].
  split; [exact Hne|]. split; [exact Hr|].
  exact (stale_drop_unregisters 1 2 0 1 example_logger example_logger []
           stale_world stale_world_old stale_world_new Hne Hr).
Defined.

(** handle 0 of the second example, dropped, through a creation and calls *)
Lemma dropped_forever_witness :
  dropped 0 stale_world ∧
  dropped 0
    (run_entries payload_only any_pattern "%v"
       [e_New true example_info; e_call m_info 0 [JsString "x"];
        e_call m_setLevel 0 [JsNumber 1]] stale_world).
Proof.
  assert (Hd : dropped 0 stale_world) by (vm_compute; reflexivity).
  split; [exact Hd|].
  exact (dropped_forever payload_only any_pattern "%v" _ 0 stale_world Hd).
Defined.

(** the live handle of the running example through logging and a level
    change *)
Lemma handle_fate_witness :
  Unwrap 0 example_world = Some (Some (0%nat, example_logger)) ∧
  (dropped 0
     (run_entries payload_only any_pattern "%v"
        [e_call m_info 0 [JsString "x"]; e_call m_setLevel 0 [JsNumber 1]]
        example_world) ∨
   ∃ lg', Unwrap 0
            (run_entries payload_only any_pattern "%v"
               [e_call m_info 0 [JsString "x"];
                e_call m_setLevel 0 [JsNumber 1]] example_world)
          = Some (Some (0%nat, lg')) ∧ same_identity example_logger lg').
Proof.
  split; [exact example_world_live|].
  exact (handle_fate payload_only any_pattern "%v" _ 0 0 example_logger example_world
           example_world_live).
Defined.

(** logging, a level change and the exported [setLevel] on the running
    example *)
Lemma only_New_and_drop_change_registry_witness :
  Forall (λ e, creates_or_releases e = false)
    [e_call m_critical 0 [JsString "x"]; e_call m_setLevel 0 [JsNumber 1];
     e_setLevel [JsNumber 4]] ∧
  registry
    (run_entries payload_only any_pattern "%v"
       [e_call m_critical 0 [JsString "x"]; e_call m_setLevel 0 [JsNumber 1];
        e_setLevel [JsNumber 4]] example_world)
  = registry example_world.
Proof.
  assert (H : Forall (λ e, creates_or_releases e = false)
                [e_call m_critical 0 [JsString "x"];
                 e_call m_setLevel 0 [JsNumber 1]; e_setLevel [JsNumber 4]])
    by (repeat constructor).
  split; [exact H|].
  exact (proj1 (only_New_and_drop_change_registry payload_only any_pattern "%v" _
                  example_world H)).
Defined.

(** C3 at the running example: after the creation of "app", a logging call,
    the creation of a console logger and a change of the default level, the
    name "app\0x" under the other kind, with another file, size and
    count. *)
Lemma C3_same_name_same_logger_witness :
  wf_world initial_world ∧
  Logger_New "%v" true example_info initial_world
  = (Return (JsObject 0), example_world) ∧
  rotating_kind (c_str "rotating_async") ∧
  c_str (nul_suffixed "app") = created_name example_info ∧
  registry (run_entries payload_only any_pattern "%v" example_entries
              example_world) !! c_str (nul_suffixed "app")
  = registry example_world !! c_str (nul_suffixed "app") ∧
  ∃ h2 l lg,
    (Logger_New "%v" true
       [JsString "rotating_async"; JsString (nul_suffixed "app");
        JsString "/tmp/other.log"; JsNumber 1; JsNumber 1]
       (run_entries payload_only any_pattern "%v" example_entries
          example_world)).1 = Return (JsObject h2) ∧
    h2 ≠ 0%nat ∧
    Unwrap 0
      (set_wrapped
         (wrapped (run_entries payload_only any_pattern "%v" example_entries
                     example_world) ++ [Some l])
         (run_entries payload_only any_pattern "%v" example_entries
            example_world))
    = Some (Some (l, lg)) ∧
    Unwrap h2
      (set_wrapped
         (wrapped (run_entries payload_only any_pattern "%v" example_entries
                     example_world) ++ [Some l])
         (run_entries payload_only any_pattern "%v" example_entries
            example_world))
    = Some (Some (l, lg)).
Proof.
  assert (H1 : Logger_New "%v" true example_info initial_world
               = (Return (JsObject 0), example_world)) by reflexivity.
  assert (H2 : rotating_kind (c_str "rotating_async")) by (right; reflexivity).
  assert (H3 : c_str (nul_suffixed "app") = created_name example_info)
    by reflexivity.
  assert (H4 : registry (run_entries payload_only any_pattern "%v"
                           example_entries example_world)
                 !! c_str (nul_suffixed "app")
               = registry example_world !! c_str (nul_suffixed "app"))
    by (vm_compute; reflexivity).
  split; [exact wf_initial_world|]. split; [exact H1|]. split; [exact H2|].
  split; [exact H3|]. split; [exact H4|].
  destruct (C3_same_name_same_logger payload_only any_pattern "%v"
              example_info "rotating_async" (nul_suffixed "app")
              "/tmp/other.log" 1 1 0 example_entries initial_world
              example_world wf_initial_world H1 H2 H3 H4)
    as (h2 & l & lg & Hnew & Hne & _ & Hu1 & Hu2 & _).
  exists h2, l, lg. rewrite Hnew. split; [reflexivity|].
  split; [exact Hne|]. split; [exact Hu1 | exact Hu2].
Defined.
